(** * node-filesaver: a shallow embedding of [src/Filesaver.js]

    The development models the [Filesaver] object (an alias table and the
    [safenames] flag), the part of the Node runtime it talks to (truthiness,
    [typeof], [String.prototype.split], [Array.prototype.join],
    [path.resolve], [fs.existsSync], [fs.rename], [mkdirp]) and the three
    public operations [folder], [put] and [add].

    Conventions.
    - A JavaScript string is a [string]; [split] and [join] follow the
      ECMAScript definitions for a one-character separator.
    - The filesystem is a finite map from normalised absolute paths to nodes.
      [path.resolve] normalises lexically; [fs.existsSync] and [fs.exists]
      hand the string they are given to the kernel, which looks it up one
      component after the other ([walk]). Symbolic links and permissions are
      outside the model.
    - [fs.exists] and [fs.rename] are run to completion where they are
      called, and their callbacks are run in place; an operation is followed
      up to the call of its callback. A [TypeError] raised inside the
      completion callback of [fs.rename] or [fs.exists], after the operation
      has returned, is told apart from one raised by the operation itself.
    - [mkdirp(p)] is only started by the code, which never waits for it: the
      directories whose creation is under way are kept in the state, and
      [settle] is the disk once they have all been carried out.
    - The calls made to callbacks are recorded in a trace, so that "the
      callback fired once with an error" is a statement about that trace.
    - The alias table [this.folders] is a plain object: its own properties
      are a finite map from alias to path, and a lookup that finds no own
      property falls back on [Object.prototype]. A JavaScript number is an
      integer here, and a plain object has neither a [split] method nor a
      call behaviour. *)

From Stdlib Require Import Ascii String.
From stdpp Require Import gmap strings list fin_maps pretty.

Open Scope string_scope.

(** ** Strings and arrays of strings *)

(** [s.split(sep)] for a one-character separator. The result is never the
    empty array: [''.split('/')] is [['']]. *)
Fixpoint split (sep : ascii) (s : string) : list string :=
  match s with
  | EmptyString => [""]
  | String c r =>
      if Ascii.eqb c sep then "" :: split sep r
      else match split sep r with
           | [] => [String c ""]
           | h :: t => String c h :: t
           end
  end.

(** [a.join(sep)] on an array of strings. *)
Fixpoint join (sep : string) (a : list string) : string :=
  match a with
  | [] => ""
  | [x] => x
  | x :: r => x +:+ sep +:+ join sep r
  end.

(** [a.pop()] returns the last element; [a] is what is left of the array.
    The arrays popped in the source come from [split] and are never empty. *)
Definition pop (a : list string) : string * list string :=
  (List.last a "", removelast a).

(** [a.shift()] returns the first element. *)
Definition shift (a : list string) : string * list string :=
  (List.hd "" a, List.tl a).

(** [String(a)] for an array of strings: [Array.prototype.toString] is
    [a.join(',')]. *)
Definition array_toString (a : list string) : string := join "," a.

Definition string_eqb (a b : string) : bool := bool_decide (a = b).

(** [s.indexOf(c) !== -1]. *)
Fixpoint has_char (c : ascii) (s : string) : bool :=
  match s with
  | EmptyString => false
  | String a r => Ascii.eqb a c || has_char c r
  end.

(** A string that is empty or ends with the path separator. *)
Definition ends_sep (p : string) : Prop := p = "" \/ exists r, p = r +:+ "/".

(** [s.lastIndexOf(c)], [None] for -1. *)
Fixpoint last_index (c : ascii) (s : string) : option nat :=
  match s with
  | EmptyString => None
  | String a r =>
      match last_index c r with
      | Some i => Some (S i)
      | None => if Ascii.eqb a c then Some 0 else None
      end
  end.

(** The substring of [s] after its last [c]; all of [s] when it has none. *)
Definition after_last (c : ascii) (s : string) : string :=
  match last_index c s with
  | Some i => String.substring (S i) (String.length s - S i) s
  | None => s
  end.

Definition nonempty (s : string) : bool := negb (string_eqb s "").

(** ** JavaScript values *)

Inductive errno := ENOENT | ENOTDIR | EISDIR | ENOTEMPTY | EINVAL | EBUSY.

(** A function value is either a callback handed in by the caller or the
    [function () {}] that [checker] creates. *)
Inductive fn :=
  | Callback (id : nat)
  | Noop.

Definition fn_eqb (f g : fn) : bool :=
  match f, g with
  | Callback i, Callback j => Nat.eqb i j
  | Noop, Noop => true
  | _, _ => false
  end.

Inductive jsval :=
  | VUndefined
  | VNull
  | VBool (b : bool)
  | VNum (n : Z)
  | VStr (s : string)
  | VFun (f : fn)
  | VObj
  | VError (e : errno)
  | VData (filename filepath : string).

Inductive jstype := TUndefined | TObject | TBoolean | TNumber | TString | TFunction.

Definition typeof (v : jsval) : jstype :=
  match v with
  | VUndefined => TUndefined
  | VNull => TObject
  | VBool _ => TBoolean
  | VNum _ => TNumber
  | VStr _ => TString
  | VFun _ => TFunction
  | VObj | VError _ | VData _ _ => TObject
  end.

Definition jstype_eqb (a b : jstype) : bool :=
  match a, b with
  | TUndefined, TUndefined | TObject, TObject | TBoolean, TBoolean
  | TNumber, TNumber | TString, TString | TFunction, TFunction => true
  | _, _ => false
  end.

(** [ToBoolean]. *)
Definition truthy (v : jsval) : bool :=
  match v with
  | VUndefined | VNull => false
  | VBool b => b
  | VNum n => negb (Z.eqb n 0)
  | VStr s => nonempty s
  | VFun _ | VObj | VError _ | VData _ _ => true
  end.

(** The string held by a value; only used where [typeof v === 'string']. *)
Definition str_of (v : jsval) : string :=
  match v with VStr s => s | _ => "" end.

(** [v.split('/').pop()]: a [TypeError] ([None]) unless [v] is a string. *)
Definition split_pop (v : jsval) : option string :=
  match v with
  | VStr s => Some (fst (pop (split "/" s)))
  | _ => None
  end.

(** ** [path.resolve] (POSIX) *)

Definition is_absolute (p : string) : bool :=
  match p with
  | String c _ => Ascii.eqb c "/"
  | EmptyString => false
  end.

(** The right-to-left scan of [path.resolve]: empty arguments are skipped, the
    scan stops at the first absolute one, and the working directory is used
    when none is absolute. *)
Fixpoint resolve_gather (wd : string) (rev_paths : list string) (acc : string) : string :=
  match rev_paths with
  | [] => wd +:+ "/" +:+ acc
  | p :: r =>
      if nonempty p then
        if is_absolute p then p +:+ "/" +:+ acc
        else resolve_gather wd r (p +:+ "/" +:+ acc)
      else resolve_gather wd r acc
  end.

(** [normalizeString] without [allowAboveRoot]: empty and [.] segments are
    dropped, [..] removes the segment before it (and is dropped at the root).
    [stack] holds the kept segments, last first. *)
Fixpoint normalize_segs (stack : list string) (segs : list string) : list string :=
  match segs with
  | [] => rev stack
  | s :: r =>
      if string_eqb s "" || string_eqb s "." then normalize_segs stack r
      else if string_eqb s ".." then normalize_segs (List.tl stack) r
      else normalize_segs (s :: stack) r
  end.

(** A segment that [normalize_segs] keeps: no separator in it, and it is
    neither empty nor [.] nor [..]. *)
Definition proper_seg (s : string) : bool :=
  negb (has_char "/" s)
  && negb (string_eqb s "" || string_eqb s ".")
  && negb (string_eqb s "..").

Definition of_segs (segs : list string) : string := "/" +:+ join "/" segs.

Definition path_resolve (wd : string) (paths : list string) : string :=
  of_segs (normalize_segs [] (split "/" (resolve_gather wd (rev paths) ""))).

(** ** The filesystem *)

Inductive node :=
  | File (content : string)
  | Dir.

Definition is_dir (o : option node) : bool :=
  match o with Some Dir => true | _ => false end.

Definition is_file (o : option node) : bool :=
  match o with Some (File _) => true | _ => false end.

Definition is_some_path (o : option string) : bool :=
  match o with Some _ => true | None => false end.

(** The root directory always exists. *)
Definition disk_lookup (d : gmap string node) (k : string) : option node :=
  if string_eqb k "/" then Some Dir else d !! k.

(** The segments of a normalised absolute path. *)
Definition segs_of (k : string) : list string :=
  normalize_segs [] (split "/" k).

Definition dirname (k : string) : string := of_segs (removelast (segs_of k)).

(** The path itself and the directories above it, the root excluded. *)
Definition ancestors (k : string) : list string :=
  let segs := segs_of k in
  List.map (fun n => of_segs (take (S n) segs)) (seq 0 (List.length segs)).

(** [mkdirp(p)] with its error dropped, as the source calls it: every missing
    directory on the way is created, unless a regular file is in the way. *)
Definition mkdirp (d : gmap string node) (k : string) : gmap string node :=
  if existsb (fun a => is_file (disk_lookup d a)) (ancestors k) then d
  else foldr (fun a acc => <[a := Dir]> acc) d (ancestors k).

Definition is_under (old k : string) : bool :=
  string_eqb k old || String.prefix (old +:+ "/") k.

Definition rebase (old new k : string) : string :=
  new +:+ String.substring (String.length old) (String.length k - String.length old) k.

Definition move_tree (d : gmap string node) (old new : string) : gmap string node :=
  list_to_map
    (List.map (fun kv => (if is_under old (fst kv) then rebase old new (fst kv) else fst kv, snd kv))
              (map_to_list d)).

Definition has_children (d : gmap string node) (k : string) : bool :=
  existsb (fun kv => String.prefix (k +:+ "/") (fst kv)) (map_to_list d).

(** Why an entry cannot be reached, its directory not being one: going up
    from that directory, the first entry that exists is a regular file
    ([ENOTDIR]) or a directory under which something is missing ([ENOENT]).
    [above] lists the entries to look at, nearest first. *)
Fixpoint nearest_error (d : gmap string node) (above : list string) : errno :=
  match above with
  | [] => ENOENT
  | a :: r =>
      match d !! a with
      | Some (File _) => ENOTDIR
      | Some Dir => ENOENT
      | None => nearest_error d r
      end
  end.

(** The error of looking up the directory of [k], if any. *)
Definition parent_error (d : gmap string node) (k : string) : option errno :=
  if is_dir (disk_lookup d (dirname k)) then None
  else Some (nearest_error d (rev (ancestors (dirname k)))).

(** [rename(2)] on normalised paths, with the order of its checks: the two
    directories are looked up first, then the root is refused, then the source
    is looked up, then source and target are compared. *)
Definition disk_rename (d : gmap string node) (old new : string) : errno + gmap string node :=
  match disk_lookup d old with
  | None =>
      inl (match parent_error d old with
           | Some e => e
           | None =>
               match parent_error d new with
               | Some e => e
               | None => if string_eqb new "/" then EBUSY else ENOENT
               end
           end)
  | Some n =>
      match parent_error d new with
      | Some e => inl e
      | None =>
          if string_eqb old "/" || string_eqb new "/" then inl EBUSY
          else
            match n, disk_lookup d new with
            | File c, Some Dir => inl (if is_under new old then ENOTEMPTY else EISDIR)
            | File c, _ => inr (<[new := File c]> (delete old d))
            | Dir, tgt =>
                if string_eqb old new then inr d
                else if is_under old new then inl EINVAL
                else if is_under new old then inl ENOTEMPTY
                else
                  match tgt with
                  | Some (File _) => inl ENOTDIR
                  | Some Dir =>
                      if has_children d new then inl ENOTEMPTY
                      else inr (move_tree d old new)
                  | None => inr (move_tree d old new)
                  end
            end
      end
  end.

(** The lookup of a path by the kernel, one component after the other from
    the directory [stack] (its segments, last first): an empty component is
    skipped; any other needs the place reached so far to be a directory;
    [.] stays there, [..] goes up, a name goes down, whether or not that
    entry exists. *)
Fixpoint walk (d : gmap string node) (stack comps : list string) : option (list string) :=
  match comps with
  | [] => Some stack
  | c :: r =>
      if string_eqb c "" then walk d stack r
      else if is_dir (disk_lookup d (of_segs (rev stack))) then
        if string_eqb c "." then walk d stack r
        else if string_eqb c ".." then walk d (List.tl stack) r
        else walk d (c :: stack) r
      else None
  end.

(** [stat(2)] succeeds on [p] from the working directory [wd]: the walk comes
    through and ends on an entry, a directory when [p] ends with a
    separator. *)
Definition reachable (wd : string) (d : gmap string node) (p : string) : bool :=
  match walk d (if is_absolute p then [] else rev (segs_of wd)) (split "/" p) with
  | Some stack =>
      let n := disk_lookup d (of_segs (rev stack)) in
      if string_eqb (List.last (split "/" p) "") "" then is_dir n
      else is_dir n || is_file n
  | None => false
  end.

(** ** The Filesaver object and its environment *)

Record state := mkState {
  cwd : string;                    (* process.cwd(), an absolute path *)
  disk : gmap string node;         (* the filesystem *)
  folders : gmap string string;    (* the own properties of this.folders *)
  safenames : bool;                (* this.safenames *)
  pending : gset string            (* directories whose mkdirp is under way *)
}.

Definition set_disk (st : state) (d : gmap string node) : state :=
  mkState (cwd st) d (folders st) (safenames st) (pending st).

(** The names every plain object inherits from [Object.prototype]. *)
Definition object_prototype_keys : list string :=
  ["constructor"; "toString"; "toLocaleString"; "valueOf"; "hasOwnProperty";
   "isPrototypeOf"; "propertyIsEnumerable"; "__proto__"; "__defineGetter__";
   "__defineSetter__"; "__lookupGetter__"; "__lookupSetter__"].

(** What [this.folders[name]] gives: an own property, a value inherited from
    [Object.prototype] (a function, or the prototype itself: truthy, and not
    a string), or [undefined]. *)
Inductive slot :=
  | Own (folderPath : string)
  | Inherited
  | Absent.

Definition get_folder (st : state) (name : string) : slot :=
  match folders st !! name with
  | Some p => Own p
  | None => if existsb (string_eqb name) object_prototype_keys then Inherited else Absent
  end.

(** [if (this.folders[name])]. *)
Definition folder_known (st : state) (name : string) : bool :=
  match get_folder st name with
  | Own p => nonempty p
  | Inherited => true
  | Absent => false
  end.

(** The assignment [this.folders[name] = folderPath] creates or updates an
    own property, except for [__proto__]: unless it is an own property
    already, the name reaches the setter of [Object.prototype], which ignores
    a string. *)
Definition storable (st : state) (name : string) : bool :=
  negb (string_eqb name "__proto__") || is_some_path (folders st !! name).

Definition set_folder (st : state) (name folderPath : string) : state :=
  if storable st name then
    mkState (cwd st) (disk st) (<[name := folderPath]> (folders st)) (safenames st)
            (pending st)
  else st.

(** The filesystem entry a path argument names, once the path has been
    looked up or made: the path resolved lexically. *)
Definition key (st : state) (p : string) : string := path_resolve (cwd st) [p].

(** [fs.existsSync(p)]: the raw string goes to the kernel; the empty path
    names nothing. *)
Definition existsSync (st : state) (p : string) : bool :=
  nonempty p && reachable (cwd st) (disk st) p.

(** [mkdirp(p)] as the source calls it, without a callback: [mkdirp] resolves
    its argument and starts; the call returns before anything is made. *)
Definition start_mkdirp (st : state) (p : string) : state :=
  mkState (cwd st) (disk st) (folders st) (safenames st) ({[key st p]} ∪ pending st).

(** The state once every creation under way has been carried out. *)
Definition settle (st : state) : state :=
  mkState (cwd st)
          (foldr (fun k d => mkdirp d k) (disk st) (elements (pending st)))
          (folders st) (safenames st) ∅.

(** ** The [tools] module

    [src/Filesaver.js] requires [./tools] for [safename] and [finalName];
    that file is not part of the sources at hand. *)

Module tools.

Definition is_alnum (c : ascii) : bool :=
  let n := nat_of_ascii c in
  (Nat.leb 48 n && Nat.leb n 57) || (Nat.leb 65 n && Nat.leb n 90)
  || (Nat.leb 97 n && Nat.leb n 122).

Definition is_safe (c : ascii) : bool :=
  is_alnum c || Ascii.eqb c "-" || Ascii.eqb c "_".

(** Modelled from the spec: [tools.safename], whose source is missing. The
    spec asks for a total map to "characters safe across common filesystems
    (e.g., alphanumerics, hyphen, underscore; replace or strip everything
    else, including path separators)"; this model strips. *)
Fixpoint safename (s : string) : string :=
  match s with
  | EmptyString => ""
  | String c r => if is_safe c then String c (safename r) else safename r
  end.

(** Modelled from the spec: the split of a candidate path into directory,
    basename and extension. The extension starts at the last dot of the last
    segment and is empty when that segment has no dot. *)
Definition split_ext (name : string) : string * string :=
  let parts := split "." name in
  match parts with
  | [] | [_] => (name, "")
  | _ => (join "." (removelast parts), "." +:+ List.last parts "")
  end.

(** Modelled from the spec: [basename_N.extension], the counter being
    written in decimal and appended to the whole basename. *)
Definition suffixed (name : string) (n : nat) : string :=
  let '(basename, ext) := split_ext name in
  basename +:+ "_" +:+ pretty n +:+ ext.

(** Modelled from the spec: [directory/basename_N.extension]. *)
Definition candidate (route : string) (n : nat) : string :=
  let '(name, dirs) := pop (split "/" route) in
  join "/" (dirs ++ [suffixed name n]).

(** The search "starting at suffix counter N=1 ... increment N until a
    non-existing path is found", with a bound on the number of tests. *)
Fixpoint search (st : state) (route : string) (fuel n : nat) : option string :=
  match fuel with
  | O => None
  | S fuel' =>
      if existsSync st (candidate route n) then search st route fuel' (S n)
      else Some (candidate route n)
  end.

(** Modelled from the spec: [tools.finalName], whose source is missing.
    "If candidatePath does not exist, return it unchanged. Otherwise,
    starting at suffix counter N=1, test directory/basename_N.extension;
    increment N until a non-existing path is found; return that path."
    The filesystem is finite, so one more test than it has entries is enough
    (lemma [search_finds]); [None] stands for a search that does not end. *)
Definition finalName (st : state) (route : string) : option string :=
  if existsSync st route then search st route (S (size (disk st))) 1
  else Some route.

End tools.

(** ** [src/Filesaver.js] *)

(** What an operation did: the state it left, the calls it made to callbacks
    (oldest first) and how it ended. [Threw_TypeError]: the operation itself
    threw. [Threw_later]: the operation returned, and a [TypeError] was
    raised afterwards inside the completion callback of [fs.rename] or [fs.exists]. *)
Inductive completion := Returned | Threw_TypeError | Threw_later | Diverged.

Record result := mkResult {
  final : state;
  calls : list (fn * list jsval);
  outcome : completion
}.

(** [callback(args)]: a [TypeError] when [callback] is not a function. *)
Definition invoke (st : state) (callback : jsval) (args : list jsval) : result :=
  match callback with
  | VFun f => mkResult st [(f, args)] Returned
  | _ => mkResult st [] Threw_TypeError
  end.

(** [callback(args)] inside the completion callback of [fs.rename] or of
    [fs.exists]: the operation has returned by then. *)
Definition invoke_later (st : state) (callback : jsval) (args : list jsval) : result :=
  match callback with
  | VFun f => mkResult st [(f, args)] Returned
  | _ => mkResult st [] Threw_later
  end.

(** The last component of a path as the kernel sees it, separators at the
    end left out. *)
Definition last_component (p : string) : string :=
  List.last (List.filter nonempty (split "/" p)) "".

Definition is_dots (c : string) : bool := string_eqb c "." || string_eqb c "..".

(** [fs.rename(oldPath, newPath)] on the strings as given. A source whose
    last component is [.] or [..] names a directory, and [rename(2)] refuses
    it ([EBUSY]); otherwise the entries the two paths name are renamed. *)
Definition fs_rename (st : state) (oldPath newPath : string) : errno + gmap string node :=
  if is_dots (last_component oldPath) && is_dir (disk_lookup (disk st) (key st oldPath))
  then inl EBUSY
  else disk_rename (disk st) (key st oldPath) (key st newPath).

(** [move]: [fs.rename] and the call of [callback] on its completion. *)
Definition move (st : state) (oldPath newPath : string) (callback : jsval) : result :=
  match fs_rename st oldPath newPath with
  | inl err => invoke_later st callback [VError err]
  | inr d =>
      invoke_later (set_disk st d) callback
        [VNull; VData (fst (pop (split "/" newPath))) newPath]
  end.

(** [checkSafeName.call(this, route)]. [[basename, ext].join('.')] joins a
    string and an array: the array is converted with [toString]. *)
Definition checkSafeName (st : state) (route : string) : string :=
  if safenames st then
    let '(name, route1) := pop (split "/" route) in
    let '(basename, ext) := shift (split "." name) in
    let basename := tools.safename basename in
    let name := join "." [basename; array_toString ext] in
    join "/" (route1 ++ [name])
  else route.

(** The three ways [checker] ends: it returns [{newPath, callback}], it calls
    the callback with an error and returns [false], or it throws.
    [path.resolve] looks at its arguments from the last to the first and
    stops at an absolute one; it throws a [TypeError] on an argument that it
    looks at and that is not a string. *)
Inductive checked :=
  | Data (newPath : string) (callback : jsval)
  | Refused (r : result).

(** The argument shuffle at the head of [checker]. *)
Definition normalise (oldPath newPath callback : jsval) : option (jsval * jsval) :=
  if negb (truthy callback) && jstype_eqb (typeof newPath) TFunction then
    match split_pop oldPath with
    | Some name => Some (VStr name, newPath)
    | None => None
    end
  else if negb (truthy newPath) then
    match split_pop oldPath with
    | Some name => Some (VStr name, VFun Noop)
    | None => None
    end
  else Some (newPath, callback).

Definition checker (st : state) (folder oldPath newPath callback : jsval) : checked :=
  match normalise oldPath newPath callback with
  | None => Refused (mkResult st [] Threw_TypeError)
  | Some (newPath, callback) =>
      if truthy folder && truthy oldPath
         && jstype_eqb (typeof folder) TString && jstype_eqb (typeof oldPath) TString
         && existsSync st (str_of oldPath)
      then
        match get_folder st (str_of folder) with
        | Own dir =>
            if nonempty dir then
              match newPath with
              | VStr name => Data (checkSafeName st (path_resolve (cwd st) [dir; name])) callback
              | _ => Refused (mkResult st [] Threw_TypeError)
              end
            else Refused (invoke st callback [VStr "invalid folder"])
        | Inherited =>
            match newPath with
            | VStr name =>
                if is_absolute name then
                  Data (checkSafeName st (path_resolve (cwd st) [name])) callback
                else Refused (mkResult st [] Threw_TypeError)
            | _ => Refused (mkResult st [] Threw_TypeError)
            end
        | Absent => Refused (invoke st callback [VStr "invalid folder"])
        end
      else Refused (invoke st callback [VStr "folder or origin not valid"])
  end.

(** Constructor options: [folders] and [safenames], either may be absent. *)
Record options := mkOptions {
  opt_folders : option (gmap string string);
  opt_safenames : option bool
}.

(** The body of the constructor's [for (x in this.folders)] loop. *)
Definition ensure_folder (st : state) (folderPath : string) : state :=
  if existsSync st folderPath then st else start_mkdirp st folderPath.

(** [new Filesaver(options)] in working directory [wd] on filesystem [d]. *)
Definition Filesaver (wd : string) (d : gmap string node) (o : options) : state :=
  let fo := default ∅ (opt_folders o) in
  let st := mkState wd d fo (default false (opt_safenames o)) ∅ in
  foldl (fun st kv => ensure_folder st (snd kv)) st (map_to_list fo).

(** [Filesaver.prototype.folder]. *)
Definition folder (st : state) (name folderPath : string) (callback : jsval) : result :=
  let st := ensure_folder st folderPath in
  let st := set_folder st name folderPath in
  if truthy callback then invoke_later st callback [] else mkResult st [] Returned.

(** [Filesaver.prototype.put]. *)
Definition put (st : state) (folder oldPath newPath callback : jsval) : result :=
  match checker st folder oldPath newPath callback with
  | Data newPath callback => move st (str_of oldPath) newPath callback
  | Refused r => r
  end.

(** [Filesaver.prototype.add]. *)
Definition add (st : state) (folder oldPath newPath callback : jsval) : result :=
  match checker st folder oldPath newPath callback with
  | Data newPath callback =>
      match tools.finalName st newPath with
      | Some newPath => move st (str_of oldPath) newPath callback
      | None => mkResult st [] Diverged
      end
  | Refused r => r
  end.

(** The check of [checker], as written at its line 62. *)
Definition arguments_valid (st : state) (folder oldPath : jsval) : bool :=
  truthy folder && truthy oldPath
  && jstype_eqb (typeof folder) TString && jstype_eqb (typeof oldPath) TString
  && existsSync st (str_of oldPath).

(** [path.resolve(this.folders[folder], newPath)] does not throw: the name is
    a string, and the value found for the alias is a string too unless the
    name is absolute, in which case that value is not looked at. *)
Definition target_resolves (st : state) (folder newPath : jsval) : bool :=
  match newPath with
  | VStr name =>
      match get_folder st (str_of folder) with
      | Own _ => true
      | Inherited => is_absolute name
      | Absent => false
      end
  | _ => false
  end.

(** The same state with another alias table. *)
Definition with_folders (st : state) (fo : gmap string string) : state :=
  mkState (cwd st) (disk st) fo (safenames st) (pending st).

(** ** The invariant of the alias table *)

(** [p] names an existing directory. *)
Definition dir_at (st : state) (p : string) : bool :=
  nonempty p && is_dir (disk_lookup (disk st) (key st p)).


(** A regular file sits at [p] or above it, so that [mkdirp(p)] fails. *)
Definition blocked_at (wd : string) (d : gmap string node) (p : string) : bool :=
  existsb (fun a => is_file (disk_lookup d a)) (ancestors (path_resolve wd [p])).

Definition blocked (st : state) (p : string) : bool :=
  blocked_at (cwd st) (disk st) p.




(** How many times an operation called the function [f]. *)
Definition fired (f : fn) (r : result) : nat :=
  List.length (List.filter (fun c => fn_eqb (fst c) f) (calls r)).

(** The two error values of [checker], under the names the specification
    gives them. *)
Definition UnknownFolderError : jsval := VStr "invalid folder".
Definition InvalidArgumentError : jsval := VStr "folder or origin not valid".

(** ** A small installation used in the examples

    A home directory, a [/tmp] with two uploaded files, and a Filesaver built
    with [{folders: {images: './images'}, safenames: safe}], once [./images]
    has been made. *)

Definition example_disk : gmap string node :=
  list_to_map
    [("/home", Dir); ("/home/u", Dir); ("/tmp", Dir);
     ("/tmp/a.jpg", File "A"); ("/tmp/b.jpg", File "B")].

Definition example (safe : bool) : state :=
  settle (Filesaver "/home/u" example_disk
            (mkOptions (Some {["images" := "./images"]}) (Some safe))).

(** The installation after [put('images', '/tmp/a.jpg', 'a.jpg', cb)]. *)
Definition example_after_put : state :=
  final (put (example false) (VStr "images") (VStr "/tmp/a.jpg") (VStr "a.jpg")
             (VFun (Callback 0))).


(** * Properties *)

(** ** [split] and [join] *)

Section split_join.
Variable c : ascii.

Lemma split_not_nil s : split c s <> [].
Proof.
  destruct s as [|a r]; simpl; [discriminate|].
  destruct (Ascii.eqb a c); [discriminate|].
  destruct (split c r); discriminate.
Qed.

Lemma split_cons_other a r :
  Ascii.eqb a c = false ->
  split c (String a r) = String a (List.hd "" (split c r)) :: List.tl (split c r).
Proof.
  intros E. simpl. rewrite E.
  pose proof (split_not_nil r) as N.
  destruct (split c r); [congruence|reflexivity].
Qed.

Lemma split_free s : has_char c s = false -> split c s = [s].
Proof.
  induction s as [|a r IH]; simpl; [reflexivity|].
  intros [E F]%orb_false_elim. rewrite E, (IH F). reflexivity.
Qed.

Lemma split_app_sep a b :
  split c (a +:+ String c b) = (split c a ++ split c b)%list.
Proof.
  induction a as [|x a IH]; simpl.
  - rewrite Ascii.eqb_refl. reflexivity.
  - destruct (Ascii.eqb x c); [now rewrite IH|].
    rewrite IH. pose proof (split_not_nil a) as N.
    destruct (split c a); [congruence|reflexivity].
Qed.

Lemma split_elements_free s : Forall (fun x => has_char c x = false) (split c s).
Proof.
  induction s as [|a r IH]; simpl.
  - repeat constructor.
  - destruct (Ascii.eqb a c) eqn:E.
    + constructor; [reflexivity|exact IH].
    + destruct (split c r) as [|h t].
      * repeat constructor. simpl. now rewrite E.
      * inversion IH; subst. constructor; [|assumption].
        simpl. now rewrite E.
Qed.

Lemma join_split s : join (String c "") (split c s) = s.
Proof.
  induction s as [|a r IH]; simpl; [reflexivity|].
  pose proof (split_not_nil r) as N.
  destruct (Ascii.eqb a c) eqn:E.
  - apply Ascii.eqb_eq in E. subst a.
    destruct (split c r) as [|h t]; [congruence|].
    simpl in *. now rewrite IH.
  - destruct (split c r) as [|h t]; [congruence|].
    destruct t; simpl in *; now rewrite <- IH.
Qed.

Lemma last_index_none s : last_index c s = None <-> has_char c s = false.
Proof.
  induction s as [|a r IH]; simpl; [tauto|].
  destruct (last_index c r).
  - split; [discriminate|]. intros [_ F]%orb_false_elim.
    apply IH in F. discriminate.
  - destruct (Ascii.eqb a c); simpl; split; try discriminate; tauto.
Qed.

Lemma split_two s :
  has_char c s = true -> exists h h' t, split c s = h :: h' :: t.
Proof.
  intros H. pose proof (split_not_nil s) as N.
  pose proof (split_elements_free s) as A.
  pose proof (join_split s) as J.
  destruct (split c s) as [|h [|h' t]]; [congruence| |eauto].
  inversion A; subst. simpl in H. congruence.
Qed.

Lemma substring_all s : String.substring 0 (String.length s) s = s.
Proof. induction s; simpl; [reflexivity|]. now f_equal. Qed.

Lemma last_split s : List.last (split c s) "" = after_last c s.
Proof.
  unfold after_last. induction s as [|a r IH]; [reflexivity|].
  cbn [last_index]. destruct (has_char c r) eqn:H.
  - destruct (split_two r H) as (h & h' & t & S).
    destruct (last_index c r) as [i|] eqn:L.
    2:{ apply last_index_none in L. congruence. }
    transitivity (List.last (split c r) "").
    + simpl. rewrite S. now destruct (Ascii.eqb a c).
    + rewrite IH. reflexivity.
  - pose proof H as L. apply last_index_none in L. rewrite L.
    simpl. rewrite (split_free r H).
    destruct (Ascii.eqb a c); simpl; [|reflexivity].
    now rewrite Nat.sub_0_r, substring_all.
Qed.
End split_join.

(** ** More on strings: appending, characters, lengths *)

Lemma append_cons a (s t : string) : String a s +:+ t = String a (s +:+ t).
Proof. reflexivity. Qed.

Lemma append_assoc (a b c : string) : (a +:+ b) +:+ c = a +:+ b +:+ c.
Proof.
  induction a as [|x a IH]; [reflexivity|].
  rewrite !append_cons. now f_equal.
Qed.

Lemma append_nil_r (s : string) : s +:+ "" = s.
Proof.
  induction s as [|a s IH]; [reflexivity|].
  rewrite append_cons. now f_equal.
Qed.

Lemma has_char_app c (a b : string) :
  has_char c (a +:+ b) = has_char c a || has_char c b.
Proof.
  induction a as [|x a IH]; [reflexivity|].
  rewrite append_cons. simpl. rewrite IH. apply orb_assoc.
Qed.

Lemma length_app (a b : string) :
  String.length (a +:+ b) = String.length a + String.length b.
Proof.
  induction a as [|x a IH]; [reflexivity|].
  rewrite append_cons. simpl. now rewrite IH.
Qed.

Lemma append_inj_r (a a' e : string) : a +:+ e = a' +:+ e -> a = a'.
Proof.
  revert a'. induction a as [|x a IH]; intros [|y a'] H.
  - reflexivity.
  - apply (f_equal String.length) in H. rewrite !length_app in H.
    simpl in H. lia.
  - apply (f_equal String.length) in H. rewrite !length_app in H.
    simpl in H. lia.
  - rewrite !append_cons in H. injection H as -> H. f_equal. now apply IH.
Qed.

Lemma nonempty_has_char c s : has_char c s = true -> nonempty s = true.
Proof. now destruct s. Qed.

Lemma is_absolute_has_char s : is_absolute s = true -> has_char "/" s = true.
Proof. destruct s as [|a s]; simpl; [discriminate|]. now intros ->. Qed.

Lemma is_absolute_app (a b : string) :
  nonempty a = true -> is_absolute (a +:+ b) = is_absolute a.
Proof. now destruct a. Qed.

Lemma is_absolute_nonempty s : is_absolute s = true -> nonempty s = true.
Proof. now destruct s. Qed.

Lemma join_snoc sep (l : list string) x :
  l <> [] -> join sep (l ++ [x]) = join sep l +:+ sep +:+ x.
Proof.
  induction l as [|a l IH]; [congruence|]. intros _.
  destruct l as [|b l]; [reflexivity|].
  change (a +:+ sep +:+ join sep ((b :: l) ++ [x])
          = (a +:+ sep +:+ join sep (b :: l)) +:+ sep +:+ x).
  rewrite IH by discriminate. now rewrite !append_assoc.
Qed.

Lemma last_snoc (l : list string) x : List.last (l ++ [x]) "" = x.
Proof. apply List.last_last. Qed.

Lemma removelast_snoc (l : list string) x : removelast (l ++ [x]) = l.
Proof. apply List.removelast_last. Qed.

Lemma split_dir_name d name :
  has_char "/" name = false ->
  split "/" (d +:+ "/" +:+ name) = (split "/" d ++ [name])%list.
Proof.
  intros F. change (d +:+ "/" +:+ name) with (d +:+ String "/" name).
  now rewrite split_app_sep, (split_free _ _ F).
Qed.

Lemma Forall_last (P : string -> Prop) (l : list string) d :
  Forall P l -> P d -> P (List.last l d).
Proof.
  induction 1 as [|x l Hx Hl IH]; intros Hd; [exact Hd|].
  destruct l; [exact Hx|]. now apply IH.
Qed.

Lemma last_split_free c s : has_char c (List.last (split c s) "") = false.
Proof. apply Forall_last; [apply split_elements_free|reflexivity]. Qed.

Lemma split_ends p x :
  ends_sep p -> has_char "/" x = false ->
  split "/" (p +:+ x +:+ "/") = (removelast (split "/" p) ++ [x; ""])%list.
Proof.
  intros [->|[r ->]] F.
  - change ("" +:+ x +:+ "/") with (x +:+ String "/" "").
    now rewrite split_app_sep, (split_free _ _ F).
  - rewrite append_assoc.
    change (r +:+ "/" +:+ x +:+ "/") with (r +:+ String "/" (x +:+ String "/" "")).
    change (r +:+ "/") with (r +:+ String "/" "").
    rewrite !split_app_sep, (split_free _ _ F). simpl split.
    now rewrite removelast_snoc.
Qed.

Lemma split_trailing_sep k : split "/" (k +:+ "/") = (split "/" k ++ [""])%list.
Proof. change (k +:+ "/") with (k +:+ String "/" ""). apply split_app_sep. Qed.

Lemma split_join (segs : list string) :
  segs <> [] -> Forall (fun s => has_char "/" s = false) segs ->
  split "/" (join "/" segs) = segs.
Proof.
  induction segs as [|x segs IH]; [congruence|]. intros _ H.
  inversion H as [|? ? Fx Hrest]; subst.
  destruct segs as [|y segs]; [now apply split_free|].
  change (join "/" (x :: y :: segs)) with (x +:+ String "/" (join "/" (y :: segs))).
  rewrite split_app_sep, (split_free _ _ Fx), IH; [reflexivity|discriminate|exact Hrest].
Qed.

(** The decimal form of a number holds digits only. *)
Lemma pretty_N_go_chars c x s :
  (forall d, pretty_N_char d <> c) ->
  has_char c (pretty_N_go x s) = has_char c s.
Proof.
  intros Hc. revert s.
  induction (N.lt_wf_0 x) as [x _ IH]. intros s.
  destruct (decide (x = 0)%N) as [->|Hx]; [reflexivity|].
  rewrite pretty_N_go_step by lia.
  rewrite IH by (apply N.div_lt; lia).
  change (Ascii.eqb (pretty_N_char (x `mod` 10)) c || has_char c s = has_char c s).
  destruct (Ascii.eqb_spec (pretty_N_char (x `mod` 10)) c) as [E|_]; [|reflexivity].
  now apply Hc in E.
Qed.

Lemma pretty_nat_chars c (n : nat) :
  (forall d, pretty_N_char d <> c) -> has_char c (pretty n) = false.
Proof.
  intros Hc. unfold pretty, pretty_nat, pretty, pretty_N.
  destruct (decide (N.of_nat n = 0%N)).
  - change (Ascii.eqb "0" c || false = false).
    destruct (Ascii.eqb_spec "0" c) as [E|_]; [|reflexivity].
    now apply (Hc 0%N) in E.
  - now rewrite pretty_N_go_chars.
Qed.

Lemma digit_not_slash d : pretty_N_char d <> "/"%char.
Proof. unfold pretty_N_char. repeat case_match; discriminate. Qed.

Lemma digit_not_dot d : pretty_N_char d <> "."%char.
Proof. unfold pretty_N_char. repeat case_match; discriminate. Qed.

(** ** [path.resolve] *)

Lemma proper_seg_elim s :
  proper_seg s = true ->
  has_char "/" s = false
  /\ string_eqb s "" || string_eqb s "." = false
  /\ string_eqb s ".." = false.
Proof.
  unfold proper_seg. intros [[A B]%andb_prop C]%andb_prop.
  apply negb_true_iff in A, B, C. auto.
Qed.

Lemma proper_seg_relative s :
  proper_seg s = true -> nonempty s = true /\ is_absolute s = false.
Proof.
  intros (F & E & _)%proper_seg_elim. apply orb_false_elim in E as [E _].
  split; [unfold nonempty; now rewrite E|].
  destruct (is_absolute s) eqn:A; [|reflexivity].
  apply is_absolute_has_char in A. congruence.
Qed.

Lemma normalize_segs_app stack (a b : list string) :
  normalize_segs stack (a ++ b)
  = normalize_segs (rev (normalize_segs stack a)) b.
Proof.
  revert stack. induction a as [|s a IH]; intros stack; simpl.
  - now rewrite rev_involutive.
  - destruct (string_eqb s "" || string_eqb s "."); [apply IH|].
    destruct (string_eqb s ".."); apply IH.
Qed.

Lemma normalize_segs_trailing stack segs :
  normalize_segs stack (segs ++ [""]) = normalize_segs stack segs.
Proof.
  rewrite normalize_segs_app. simpl. apply rev_involutive.
Qed.

Lemma normalize_segs_proper stack segs :
  Forall (fun s => proper_seg s = true) stack ->
  Forall (fun s => has_char "/" s = false) segs ->
  Forall (fun s => proper_seg s = true) (normalize_segs stack segs).
Proof.
  revert stack. induction segs as [|s segs IH]; intros stack Hst Hsegs; simpl.
  - now apply Forall_rev.
  - inversion Hsegs as [|? ? Fs Hrest]; subst.
    destruct (string_eqb s "" || string_eqb s ".") eqn:E1; [now apply IH|].
    destruct (string_eqb s "..") eqn:E2.
    + apply IH; [|exact Hrest]. destruct stack; [constructor|].
      now inversion Hst.
    + apply IH; [|exact Hrest]. constructor; [|exact Hst].
      unfold proper_seg. now rewrite Fs, E1, E2.
Qed.

Lemma normalize_segs_of_proper stack segs :
  Forall (fun s => proper_seg s = true) segs ->
  normalize_segs stack segs = (rev stack ++ segs)%list.
Proof.
  revert stack. induction segs as [|s segs IH]; intros stack H; simpl.
  - now rewrite app_nil_r.
  - inversion H as [|? ? Hs Hrest]; subst.
    destruct (proper_seg_elim s Hs) as (_ & -> & ->).
    rewrite (IH _ Hrest). simpl. now rewrite <- app_assoc.
Qed.

Lemma segs_of_of_segs segs :
  Forall (fun s => proper_seg s = true) segs -> segs_of (of_segs segs) = segs.
Proof.
  intros H. unfold segs_of, of_segs.
  change ("/" +:+ join "/" segs) with (String "/" (join "/" segs)).
  destruct segs as [|x segs]; [reflexivity|].
  change (split "/" (String "/" (join "/" (x :: segs))))
    with ("" :: split "/" (join "/" (x :: segs))).
  rewrite split_join; [|discriminate|].
  - change (normalize_segs [] ("" :: x :: segs)) with (normalize_segs [] (x :: segs)).
    now rewrite normalize_segs_of_proper.
  - eapply Forall_impl; [exact H|]. intros s Hs. now apply proper_seg_elim in Hs.
Qed.

(** [path.resolve] answers a normalised path. *)
Lemma path_resolve_proper wd paths :
  exists segs, path_resolve wd paths = of_segs segs
    /\ Forall (fun s => proper_seg s = true) segs.
Proof.
  unfold path_resolve. eexists. split; [reflexivity|].
  apply normalize_segs_proper; [constructor|apply split_elements_free].
Qed.

(** What [path.resolve] scans for a single non-empty argument: the argument,
    behind the working directory unless it is absolute, and a separator. *)
Lemma resolve_gather_one wd p acc :
  nonempty p = true ->
  resolve_gather wd [p] acc
  = (if is_absolute p then p else wd +:+ "/" +:+ p) +:+ "/" +:+ acc.
Proof.
  intros N. simpl. rewrite N.
  destruct (is_absolute p); [reflexivity|]. now rewrite !append_assoc.
Qed.

Lemma resolve_gather_relative wd p r acc :
  nonempty p = true -> is_absolute p = false ->
  resolve_gather wd (p :: r) acc = resolve_gather wd r (p +:+ "/" +:+ acc).
Proof. intros N A. simpl. now rewrite N, A. Qed.

(** The segments of [path.resolve(p)]. *)
Lemma path_resolve_one wd p :
  nonempty p = true ->
  path_resolve wd [p]
  = of_segs (normalize_segs []
               (split "/" (if is_absolute p then p else wd +:+ "/" +:+ p))).
Proof.
  intros N. unfold path_resolve. simpl rev.
  rewrite (resolve_gather_one wd p "" N), append_nil_r.
  now rewrite split_trailing_sep, normalize_segs_trailing.
Qed.

(** A plain name is resolved to the entry of that name in the directory. *)
Lemma path_resolve_child wd dir name :
  nonempty dir = true -> proper_seg name = true ->
  path_resolve wd [dir; name]
  = of_segs (segs_of (path_resolve wd [dir]) ++ [name]).
Proof.
  intros Nd P. destruct (proper_seg_relative name P) as [Nn An].
  destruct (proper_seg_elim name P) as (F & E1 & E2).
  rewrite (path_resolve_one wd dir Nd).
  set (k := if is_absolute dir then dir else wd +:+ "/" +:+ dir).
  rewrite segs_of_of_segs
    by (apply normalize_segs_proper; [constructor|apply split_elements_free]).
  unfold path_resolve. change (rev [dir; name]) with [name; dir].
  rewrite (resolve_gather_relative wd name [dir] "" Nn An).
  rewrite (resolve_gather_one wd dir _ Nd). fold k.
  replace (k +:+ "/" +:+ name +:+ "/" +:+ "") with ((k +:+ "/") +:+ name +:+ "/")
    by now rewrite append_nil_r, !append_assoc.
  rewrite split_ends; [|right; eauto|exact F].
  rewrite split_trailing_sep, removelast_snoc, normalize_segs_app.
  simpl. rewrite E1, E2. simpl. now rewrite rev_involutive.
Qed.

(** An absolute name is resolved on its own: what stands before it is
    dropped. *)
Lemma path_resolve_absolute wd dir name :
  is_absolute name = true -> path_resolve wd [dir; name] = path_resolve wd [name].
Proof.
  intros A. unfold path_resolve. simpl.
  now rewrite (is_absolute_nonempty _ A), A.
Qed.

(** A normalised path is resolved to itself. *)
Lemma path_resolve_of_segs wd segs :
  Forall (fun s => proper_seg s = true) segs ->
  path_resolve wd [of_segs segs] = of_segs segs.
Proof.
  intros P. rewrite path_resolve_one by reflexivity.
  change (is_absolute (of_segs segs)) with true. cbv iota.
  f_equal. apply (segs_of_of_segs segs P).
Qed.

Lemma proper_snoc segs name :
  Forall (fun s => proper_seg s = true) segs -> proper_seg name = true ->
  Forall (fun s => proper_seg s = true) (segs ++ [name]).
Proof. intros. apply Forall_app. split; [assumption|now constructor]. Qed.

Lemma segs_of_path_resolve_proper wd paths :
  Forall (fun s => proper_seg s = true) (segs_of (path_resolve wd paths)).
Proof.
  destruct (path_resolve_proper wd paths) as (segs & -> & P).
  now rewrite segs_of_of_segs.
Qed.

Lemma of_segs_segs_of_resolve wd paths :
  of_segs (segs_of (path_resolve wd paths)) = path_resolve wd paths.
Proof.
  destruct (path_resolve_proper wd paths) as (segs & -> & P).
  now rewrite segs_of_of_segs.
Qed.

(** The last segment and the directory of [folder/name]. *)
Lemma child_parts segs name :
  Forall (fun s => proper_seg s = true) segs -> proper_seg name = true ->
  List.last (split "/" (of_segs (segs ++ [name]))) "" = name
  /\ dirname (of_segs (segs ++ [name])) = of_segs segs.
Proof.
  intros P Pn. pose proof (proper_snoc segs name P Pn) as Pa. split.
  - unfold of_segs.
    change ("/" +:+ join "/" (segs ++ [name])) with (String "/" (join "/" (segs ++ [name]))).
    change (split "/" (String "/" (join "/" (segs ++ [name]))))
      with ("" :: split "/" (join "/" (segs ++ [name]))).
    rewrite split_join.
    + change ("" :: (segs ++ [name])%list) with (("" :: segs) ++ [name])%list.
      apply last_snoc.
    + now destruct segs.
    + eapply Forall_impl; [exact Pa|]. intros s Hs. now apply proper_seg_elim in Hs.
  - unfold dirname. now rewrite (segs_of_of_segs _ Pa), removelast_snoc.
Qed.


Lemma of_segs_snoc_inj (b : list string) x y :
  of_segs (b ++ [x]) = of_segs (b ++ [y]) -> x = y.
Proof.
  unfold of_segs. intros H%String.app_inj.
  destruct b as [|d b]; [exact H|].
  rewrite !join_snoc in H by discriminate.
  now apply String.app_inj, String.app_inj in H.
Qed.

Lemma of_segs_snoc_not_root (b : list string) x :
  nonempty x = true -> string_eqb (of_segs (b ++ [x])) "/" = false.
Proof.
  intros Hx. apply bool_decide_eq_false. unfold of_segs. intros H.
  change (String "/" (join "/" (b ++ [x])) = String "/" "") in H.
  injection H as H.
  destruct b as [|d b].
  - simpl in H. subst x. discriminate.
  - rewrite join_snoc in H by discriminate.
    apply (f_equal String.length) in H. rewrite !length_app in H.
    simpl in H. lia.
Qed.

(** ** Looking a path up *)

(** A walk that comes through ends where [path.resolve] says. *)
Lemma walk_normalize d stack comps stack' :
  walk d stack comps = Some stack' -> normalize_segs stack comps = rev stack'.
Proof.
  revert stack. induction comps as [|c comps IH]; intros stack; simpl.
  - now intros [= ->].
  - destruct (string_eqb c "") eqn:E; [apply IH|].
    destruct (is_dir (disk_lookup d (of_segs (rev stack)))); [|discriminate].
    destruct (string_eqb c "."); simpl; [apply IH|].
    destruct (string_eqb c ".."); apply IH.
Qed.

(** The start of the walk and the path, as [path.resolve] puts them
    together. *)
Lemma walk_resolve wd d p stack' :
  nonempty p = true ->
  walk d (if is_absolute p then [] else rev (segs_of wd)) (split "/" p) = Some stack' ->
  path_resolve wd [p] = of_segs (rev stack').
Proof.
  intros N W. rewrite (path_resolve_one wd p N). f_equal.
  destruct (is_absolute p); [now apply (walk_normalize d)|].
  change (wd +:+ "/" +:+ p) with (wd +:+ String "/" p).
  rewrite split_app_sep, normalize_segs_app. fold (segs_of wd).
  now apply (walk_normalize d).
Qed.

(** A path that exists for the kernel names an entry of the disk: the one at
    the path resolved lexically. *)
Lemma reachable_entry wd d p :
  nonempty p = true -> reachable wd d p = true ->
  exists n, disk_lookup d (path_resolve wd [p]) = Some n.
Proof.
  intros N. unfold reachable.
  destruct (walk d _ (split "/" p)) as [stack'|] eqn:W; [|discriminate].
  rewrite (walk_resolve wd d p stack' N W).
  destruct (disk_lookup d (of_segs (rev stack'))) as [n|]; [eauto|].
  now destruct (string_eqb (List.last (split "/" p) "") "").
Qed.

Lemma existsSync_entry st p :
  existsSync st p = true -> exists n, disk_lookup (disk st) (key st p) = Some n.
Proof.
  unfold existsSync. intros [N R]%andb_prop. now apply reachable_entry.
Qed.

(** ** [mkdirp] *)

Lemma make_dirs_in (d : gmap string node) l k :
  In k l -> foldr (fun a acc => <[a := Dir]> acc) d l !! k = Some Dir.
Proof.
  induction l as [|a l IH]; simpl; [tauto|]. intros H.
  destruct (decide (a = k)) as [->|N]; [apply lookup_insert_eq|].
  rewrite lookup_insert_ne by exact N. apply IH. destruct H; [congruence|assumption].
Qed.

Lemma make_dirs_not_in (d : gmap string node) l k :
  ~ In k l -> foldr (fun a acc => <[a := Dir]> acc) d l !! k = d !! k.
Proof.
  induction l as [|a l IH]; simpl; [reflexivity|]. intros H.
  rewrite lookup_insert_ne by tauto. apply IH. tauto.
Qed.

Lemma existsb_false_In {A} (f : A -> bool) l x :
  existsb f l = false -> In x l -> f x = false.
Proof.
  intros E I. destruct (f x) eqn:F; [|reflexivity].
  assert (existsb f l = true) by (apply existsb_exists; eauto). congruence.
Qed.

Lemma existsb_same {A} (f g : A -> bool) l :
  (forall x, f x = g x) -> existsb f l = existsb g l.
Proof. intros H. induction l as [|a l IH]; simpl; [reflexivity|]. now rewrite H, IH. Qed.

Lemma mkdirp_keeps_dirs d a k :
  is_dir (disk_lookup d k) = true -> is_dir (disk_lookup (mkdirp d a) k) = true.
Proof.
  unfold mkdirp, disk_lookup.
  destruct (existsb _ (ancestors a)); [tauto|].
  destruct (string_eqb k "/"); [tauto|]. intros H.
  destruct (in_dec string_dec k (ancestors a)) as [I|I].
  - now rewrite make_dirs_in.
  - now rewrite make_dirs_not_in.
Qed.

Lemma mkdirp_keeps_files d a k :
  is_file (disk_lookup (mkdirp d a) k) = is_file (disk_lookup d k).
Proof.
  unfold mkdirp.
  destruct (existsb _ (ancestors a)) eqn:B; [reflexivity|].
  destruct (in_dec string_dec k (ancestors a)) as [I|I].
  - rewrite (existsb_false_In _ _ _ B I). unfold disk_lookup.
    destruct (string_eqb k "/"); [reflexivity|]. now rewrite make_dirs_in.
  - unfold disk_lookup. destruct (string_eqb k "/"); [reflexivity|].
    now rewrite make_dirs_not_in.
Qed.



Lemma mkdirp_file_content d a k c :
  disk_lookup (mkdirp d a) k = Some (File c) <-> disk_lookup d k = Some (File c).
Proof.
  unfold mkdirp.
  destruct (existsb _ (ancestors a)) eqn:B; [tauto|].
  unfold disk_lookup. destruct (string_eqb k "/") eqn:R; [tauto|].
  destruct (in_dec string_dec k (ancestors a)) as [I|I].
  - rewrite make_dirs_in by exact I.
    pose proof (existsb_false_In _ _ _ B I) as F. simpl in F.
    unfold disk_lookup in F. rewrite R in F.
    split; [discriminate|]. intros H. rewrite H in F. discriminate.
  - now rewrite make_dirs_not_in.
Qed.

Lemma mkdirp_blocked d k :
  existsb (fun a => is_file (disk_lookup d a)) (ancestors k) = true ->
  mkdirp d k = d.
Proof. unfold mkdirp. now intros ->. Qed.

Lemma mkdirp_idempotent d k : mkdirp (mkdirp d k) k = mkdirp d k.
Proof.
  destruct (existsb (fun a => is_file (disk_lookup d a)) (ancestors k)) eqn:B.
  - now rewrite !(mkdirp_blocked d k B).
  - unfold mkdirp at 1.
    rewrite (existsb_same _ (fun a => is_file (disk_lookup d a)))
      by (intros x; apply mkdirp_keeps_files).
    rewrite B. unfold mkdirp. rewrite B.
    apply map_eq. intros x.
    destruct (in_dec string_dec x (ancestors k)) as [I|I].
    + now rewrite !make_dirs_in.
    + now rewrite make_dirs_not_in.
Qed.

(** ** Several [mkdirp] in a row *)

Lemma make_all_keeps_files d l k :
  is_file (disk_lookup (foldr (fun k d => mkdirp d k) d l) k) = is_file (disk_lookup d k).
Proof.
  induction l as [|a l IH]; simpl; [reflexivity|].
  now rewrite mkdirp_keeps_files.
Qed.

Lemma make_all_file_content d l k c :
  disk_lookup (foldr (fun k d => mkdirp d k) d l) k = Some (File c)
  <-> disk_lookup d k = Some (File c).
Proof.
  induction l as [|a l IH]; simpl; [tauto|].
  now rewrite mkdirp_file_content.
Qed.

Lemma make_all_keeps_dirs d l k :
  is_dir (disk_lookup d k) = true ->
  is_dir (disk_lookup (foldr (fun k d => mkdirp d k) d l) k) = true.
Proof.
  intros H. induction l as [|a l IH]; simpl; [exact H|].
  now apply mkdirp_keeps_dirs.
Qed.


(** ** [rename] *)

(** Renaming a regular file onto a free path or onto another regular file. *)
Lemma disk_rename_file d old new c :
  disk_lookup d old = Some (File c) ->
  is_dir (disk_lookup d (dirname new)) = true ->
  is_dir (disk_lookup d new) = false ->
  disk_rename d old new = inr (<[new := File c]> (delete old d)).
Proof.
  intros Ho Hp Hn. unfold disk_rename, parent_error. rewrite Ho, Hp.
  assert (string_eqb old "/" = false) as ->.
  { unfold disk_lookup in Ho. now destruct (string_eqb old "/"). }
  assert (string_eqb new "/" = false) as ->.
  { unfold disk_lookup in Hn. now destruct (string_eqb new "/"). }
  simpl.
  destruct (disk_lookup d new) as [[|]|]; [reflexivity|discriminate|reflexivity].
Qed.


(** A regular file is not the root, so it is an entry of the map. *)
Lemma file_entry d k c : disk_lookup d k = Some (File c) -> d !! k = Some (File c).
Proof. unfold disk_lookup. now destruct (string_eqb k "/"). Qed.

(** ** What callbacks are called with *)

Lemma invoke_calls st callback args f args' :
  In (f, args') (calls (invoke st callback args)) -> args' = args.
Proof.
  destruct callback; simpl; try tauto.
  intros [E|[]]. congruence.
Qed.

Lemma invoke_later_calls st callback args f args' :
  In (f, args') (calls (invoke_later st callback args)) -> args' = args.
Proof.
  destruct callback; simpl; try tauto.
  intros [E|[]]. congruence.
Qed.

Lemma move_payload st oldPath newPath callback f args filename filepath :
  In (f, args) (calls (move st oldPath newPath callback)) ->
  In (VData filename filepath) args ->
  filepath = newPath /\ filename = List.last (split "/" newPath) "".
Proof.
  unfold move. destruct (fs_rename _ _ _); intros H%invoke_later_calls; subst args; simpl.
  - intros [E|[]]. discriminate.
  - intros [E|[E|[]]]; [discriminate|]. injection E as <- <-. auto.
Qed.

Lemma checker_refused_payload st folder oldPath newPath callback r f args :
  checker st folder oldPath newPath callback = Refused r ->
  In (f, args) (calls r) ->
  args = [VStr "invalid folder"] \/ args = [VStr "folder or origin not valid"].
Proof.
  unfold checker. intros H I.
  repeat match type of H with
         | context [match ?x with _ => _ end] => destruct x
         end;
    try discriminate; injection H as <-;
    solve [ destruct I | apply invoke_calls in I; auto ].
Qed.

(** C10. Whenever [put] or [add] hands a result [{filename, filepath}] to a
    callback, [filename] is the part of [filepath] after its last ['/']. *)
Theorem filename_is_after_last_slash
    st folder oldPath newPath callback f args filename filepath :
  In (f, args) (calls (put st folder oldPath newPath callback))
  \/ In (f, args) (calls (add st folder oldPath newPath callback)) ->
  In (VData filename filepath) args ->
  filename = after_last "/" filepath.
Proof.
  unfold put, add. intros H D.
  destruct (checker st folder oldPath newPath callback) as [p cb|r] eqn:C.
  - assert (exists q, In (f, args) (calls (move st (str_of oldPath) q cb))) as [q M].
    { destruct H as [H|H]; [eauto|].
      destruct (tools.finalName st p); [eauto|destruct H]. }
    destruct (move_payload _ _ _ _ _ _ _ _ M D) as [-> ->].
    apply last_split.
  - assert (In (f, args) (calls r)) as I by tauto.
    destruct (checker_refused_payload _ _ _ _ _ _ _ _ C I) as [-> | ->];
      destruct D as [D|[]]; discriminate.
Qed.

Lemma filename_is_after_last_slash_witness :
  let r := put (example false) (VStr "images") (VStr "/tmp/a.jpg") (VStr "photo.jpg")
               (VFun (Callback 0)) in
  calls r = [(Callback 0, [VNull; VData "photo.jpg" "/home/u/images/photo.jpg"])]
  /\ "photo.jpg" = after_last "/" "/home/u/images/photo.jpg".
Proof.
  split; [vm_compute; reflexivity|].
  apply (filename_is_after_last_slash (example false) (VStr "images") (VStr "/tmp/a.jpg")
           (VStr "photo.jpg") (VFun (Callback 0)) (Callback 0)
           [VNull; VData "photo.jpg" "/home/u/images/photo.jpg"]).
  - left. vm_compute. left. reflexivity.
  - simpl. right. left. reflexivity.
Defined.

(** ** The name sanitizer *)

Lemma safename_keeps_safe s c :
  has_char c (tools.safename s) = true -> tools.is_safe c = true.
Proof.
  induction s as [|a r IH]; simpl; [discriminate|].
  destruct (tools.is_safe a) eqn:S; [|exact IH].
  simpl. destruct (Ascii.eqb a c) eqn:E; [|exact IH].
  apply Ascii.eqb_eq in E. now subst.
Qed.

Lemma safename_fixes_safe s :
  (forall c, has_char c s = true -> tools.is_safe c = true) ->
  tools.safename s = s.
Proof.
  induction s as [|a r IH]; simpl; [reflexivity|]. intros H.
  rewrite (H a) by now rewrite Ascii.eqb_refl.
  f_equal. apply IH. intros c Hc. apply H. rewrite Hc. apply orb_true_r.
Qed.

(** C5. [sanitize] is a total function, its result holds no path separator
    (neither ['/'] nor the backslash), and sanitizing twice is sanitizing
    once. *)
Theorem safename_total_separator_free_idempotent s :
  (exists r, tools.safename s = r)
  /\ has_char "/" (tools.safename s) = false
  /\ has_char "\" (tools.safename s) = false
  /\ tools.safename (tools.safename s) = tools.safename s.
Proof.
  split; [eauto|]. repeat split.
  - destruct (has_char "/" (tools.safename s)) eqn:H; [|reflexivity].
    apply safename_keeps_safe in H. discriminate.
  - destruct (has_char "\" (tools.safename s)) eqn:H; [|reflexivity].
    apply safename_keeps_safe in H. discriminate.
  - apply safename_fixes_safe, safename_keeps_safe.
Qed.

(** ** [checkSafeName] *)

(** With [safenames] off the route is returned as it is. *)
Lemma checkSafeName_off st route :
  safenames st = false -> checkSafeName st route = route.
Proof. unfold checkSafeName. now intros ->. Qed.

(** The general shape of the result: the directories are kept, the part of the
    name before its first dot is sanitized, and what follows the first dot is
    put back through [toString], that is joined with commas. *)
Lemma checkSafeName_on st d name :
  safenames st = true -> has_char "/" name = false ->
  checkSafeName st (d +:+ "/" +:+ name)
  = d +:+ "/" +:+ tools.safename (List.hd "" (split "." name))
      +:+ "." +:+ join "," (List.tl (split "." name)).
Proof.
  intros S F. unfold checkSafeName, pop, shift, array_toString. rewrite S.
  rewrite (split_dir_name d name F), last_snoc, removelast_snoc.
  rewrite join_snoc by apply split_not_nil.
  now rewrite join_split.
Qed.

(** A name with exactly one dot keeps its extension. *)
Lemma checkSafeName_one_dot st d b e :
  safenames st = true ->
  has_char "/" b = false -> has_char "." b = false ->
  has_char "/" e = false -> has_char "." e = false ->
  checkSafeName st (d +:+ "/" +:+ b +:+ "." +:+ e)
  = d +:+ "/" +:+ tools.safename b +:+ "." +:+ e.
Proof.
  intros S Fb Db Fe De.
  assert (has_char "/" (b +:+ "." +:+ e) = false) as F.
  { clear -Fb Fe. induction b as [|x b IH]; [exact Fe|].
    rewrite append_cons. simpl in *.
    apply orb_false_elim in Fb as [-> Fb]. now apply IH. }
  rewrite (checkSafeName_on st d _ S F).
  change (b +:+ "." +:+ e) with (b +:+ String "." e).
  now rewrite split_app_sep, (split_free _ _ Db), (split_free _ _ De).
Qed.

(** C2. With [safenames: true] the extension is not always preserved: a name
    with two dots comes back with its second dot turned into a comma, and a
    name without a dot comes back with a dot appended. *)
Theorem checkSafeName_mangles_extension :
  calls (put (example true) (VStr "images") (VStr "/tmp/a.jpg")
             (VStr "archive.tar.gz") (VFun (Callback 0)))
  = [(Callback 0, [VNull; VData "archive.tar,gz" "/home/u/images/archive.tar,gz"])]
  /\ calls (add (example true) (VStr "images") (VStr "/tmp/a.jpg")
                (VStr "README") (VFun (Callback 0)))
     = [(Callback 0, [VNull; VData "README." "/home/u/images/README."])]
  /\ checkSafeName (example true) "/home/u/images/archive.tar.gz"
     = "/home/u/images/archive.tar,gz"
  /\ checkSafeName (example true) "/home/u/images/README"
     = "/home/u/images/README.".
Proof. vm_compute. repeat split; reflexivity. Qed.

(** X18. What [checkSafeName] does to a route [dir/name] when [safenames] is
    on: the directory is kept; the part of the name before its first dot is
    sanitized; what follows the first dot is kept, with every further dot
    turned into a comma. So a name with exactly one dot keeps its extension,
    and a name without a dot gets a dot appended. *)
Theorem checkSafeName_shape st d :
  safenames st = true ->
  (forall name, has_char "/" name = false ->
     checkSafeName st (d +:+ "/" +:+ name)
     = d +:+ "/" +:+ tools.safename (List.hd "" (split "." name))
         +:+ "." +:+ join "," (List.tl (split "." name)))
  /\ (forall b e,
        has_char "/" b = false -> has_char "." b = false ->
        has_char "/" e = false -> has_char "." e = false ->
        checkSafeName st (d +:+ "/" +:+ b +:+ "." +:+ e)
        = d +:+ "/" +:+ tools.safename b +:+ "." +:+ e)
  /\ (forall b,
        has_char "/" b = false -> has_char "." b = false ->
        checkSafeName st (d +:+ "/" +:+ b) = d +:+ "/" +:+ tools.safename b +:+ ".").
Proof.
  intros S. split; [|split].
  - intros name F. now apply checkSafeName_on.
  - intros b e Fb Db Fe De. now apply checkSafeName_one_dot.
  - intros b Fb Db. rewrite (checkSafeName_on st d b S Fb).
    now rewrite (split_free _ _ Db).
Qed.

Lemma checkSafeName_shape_witness :
  checkSafeName (example true) ("/home/u/images" +:+ "/" +:+ "my file!" +:+ "." +:+ "jpg")
  = "/home/u/images" +:+ "/" +:+ tools.safename "my file!" +:+ "." +:+ "jpg"
  /\ checkSafeName (example true) ("/home/u/images" +:+ "/" +:+ "README")
     = "/home/u/images" +:+ "/" +:+ tools.safename "README" +:+ ".".
Proof.
  assert (safenames (example true) = true) as S by (vm_compute; reflexivity).
  destruct (checkSafeName_shape (example true) "/home/u/images" S) as (_ & One & None).
  split.
  - apply (One "my file!" "jpg"); reflexivity.
  - apply (None "README"); reflexivity.
Defined.

(** ** The argument shuffle *)

Lemma normalise_string_source src newPath callback :
  exists np cb, normalise (VStr src) newPath callback = Some (np, cb).
Proof.
  unfold normalise. simpl.
  destruct (negb (truthy callback) && jstype_eqb (typeof newPath) TFunction); [eauto|].
  destruct (negb (truthy newPath)); eauto.
Qed.

(** All four arguments given, the name a non-empty string and the callback a
    function: nothing is shuffled. *)
Lemma normalise_full oldPath name f :
  nonempty name = true ->
  normalise oldPath (VStr name) (VFun f) = Some (VStr name, VFun f).
Proof. intros N. unfold normalise. simpl. now rewrite N. Qed.

(** The callback in third place: it is moved to its place and the name is the
    last segment of the source. *)
Lemma normalise_three src f :
  normalise (VStr src) (VFun f) VUndefined
  = Some (VStr (List.last (split "/" src) ""), VFun f).
Proof. reflexivity. Qed.

(** Neither name nor callback: the name is the last segment of the source and
    the callback is the empty function of [checker]. *)
Lemma normalise_two src :
  normalise (VStr src) VUndefined VUndefined
  = Some (VStr (List.last (split "/" src) ""), VFun Noop).
Proof. reflexivity. Qed.

(** ** The checks of [put] and [add] *)

Lemma invoke_final st callback args : final (invoke st callback args) = st.
Proof. now destruct callback. Qed.

Lemma invoke_later_final st callback args : final (invoke_later st callback args) = st.
Proof. now destruct callback. Qed.

(** A value found for the alias that passes the test of line 64. *)
Lemma get_folder_own st a dir : folders st !! a = Some dir -> get_folder st a = Own dir.
Proof. unfold get_folder. now intros ->. Qed.

(** A refusal never touches the disk or the alias table. *)
Lemma checker_refused_state st folder oldPath newPath callback r :
  checker st folder oldPath newPath callback = Refused r -> final r = st.
Proof.
  unfold checker, invoke. intros H.
  repeat match type of H with
         | context [match ?x with _ => _ end] => destruct x
         end;
    try discriminate; now injection H as <-.
Qed.

(** Arguments that fail the check are reported to the callback that [checker]
    settled on, and nothing is moved. *)
Lemma checker_invalid_arguments st folder oldPath newPath callback np cb :
  truthy folder && truthy oldPath
    && jstype_eqb (typeof folder) TString && jstype_eqb (typeof oldPath) TString
    && existsSync st (str_of oldPath) = false ->
  normalise oldPath newPath callback = Some (np, cb) ->
  checker st folder oldPath newPath callback
  = Refused (invoke st cb [InvalidArgumentError]).
Proof. intros Hg Hn. unfold checker. now rewrite Hn, Hg. Qed.

Lemma checker_invalid st folder oldPath newPath callback np cb :
  arguments_valid st folder oldPath = false ->
  normalise oldPath newPath callback = Some (np, cb) ->
  checker st folder oldPath newPath callback
  = Refused (invoke st cb [InvalidArgumentError]).
Proof. apply checker_invalid_arguments. Qed.

Lemma checker_unknown_alias st folder oldPath newPath callback np cb :
  arguments_valid st folder oldPath = true ->
  folder_known st (str_of folder) = false ->
  normalise oldPath newPath callback = Some (np, cb) ->
  checker st folder oldPath newPath callback
  = Refused (invoke st cb [UnknownFolderError]).
Proof.
  unfold arguments_valid, folder_known, checker. intros V U ->. rewrite V.
  destruct (get_folder st (str_of folder)) as [dir| |];
    [now rewrite U|discriminate|reflexivity].
Qed.

(** When [checker] hands back a target, every check went through, and the
    target comes from the own path of the alias, or from an absolute name
    alone when the alias is only an inherited name. *)
Lemma checker_data_inv st folder oldPath newPath callback target cb :
  checker st folder oldPath newPath callback = Data target cb ->
  arguments_valid st folder oldPath = true
  /\ exists name,
       normalise oldPath newPath callback = Some (VStr name, cb)
       /\ ((exists dir, get_folder st (str_of folder) = Own dir /\ nonempty dir = true
                        /\ target = checkSafeName st (path_resolve (cwd st) [dir; name]))
           \/ (get_folder st (str_of folder) = Inherited /\ is_absolute name = true
               /\ target = checkSafeName st (path_resolve (cwd st) [name]))).
Proof.
  unfold checker, arguments_valid. intros H.
  destruct (normalise oldPath newPath callback) as [[np c]|]; [|discriminate].
  destruct (truthy folder && truthy oldPath
            && jstype_eqb (typeof folder) TString && jstype_eqb (typeof oldPath) TString
            && existsSync st (str_of oldPath)); [|discriminate].
  split; [reflexivity|].
  destruct (get_folder st (str_of folder)) as [dir| |]; [| |discriminate].
  - destruct (nonempty dir) eqn:N; [|discriminate].
    destruct np; try discriminate. injection H as <- <-. eauto 10.
  - destruct np as [| | | |name| | | |]; try discriminate.
    destruct (is_absolute name) eqn:A; [|discriminate].
    injection H as <- <-. eauto 10.
Qed.

(** How [checker] refuses. *)
Lemma checker_refused_inv st folder oldPath newPath callback r :
  checker st folder oldPath newPath callback = Refused r ->
  match normalise oldPath newPath callback with
  | None => r = mkResult st [] Threw_TypeError
  | Some (np, cb) =>
      (arguments_valid st folder oldPath = false
       /\ r = invoke st cb [InvalidArgumentError])
      \/ (arguments_valid st folder oldPath = true
          /\ folder_known st (str_of folder) = false
          /\ r = invoke st cb [UnknownFolderError])
      \/ (arguments_valid st folder oldPath = true
          /\ folder_known st (str_of folder) = true
          /\ target_resolves st folder np = false
          /\ r = mkResult st [] Threw_TypeError)
  end.
Proof.
  unfold checker, arguments_valid, folder_known, target_resolves. intros H.
  destruct (normalise oldPath newPath callback) as [[np cb]|];
    [|now injection H as <-].
  destruct (truthy folder && truthy oldPath
            && jstype_eqb (typeof folder) TString && jstype_eqb (typeof oldPath) TString
            && existsSync st (str_of oldPath));
    [|injection H as <-; now left].
  right. destruct (get_folder st (str_of folder)) as [dir| |].
  - destruct (nonempty dir); [|injection H as <-; now left].
    right. destruct np; try discriminate; now injection H as <-.
  - right. destruct np as [| | | |name| | | |]; try (now injection H as <-).
    destruct (is_absolute name); [discriminate|now injection H as <-].
  - left. now injection H as <-.
Qed.

(** The other way round: the checks passed, the target is handed back. *)
Lemma checker_data st folder oldPath newPath callback np cb :
  normalise oldPath newPath callback = Some (np, cb) ->
  arguments_valid st folder oldPath = true ->
  folder_known st (str_of folder) = true ->
  target_resolves st folder np = true ->
  exists target, checker st folder oldPath newPath callback = Data target cb.
Proof.
  unfold checker, arguments_valid, folder_known, target_resolves. intros -> -> K R.
  destruct (get_folder st (str_of folder)) as [dir| |]; [| |discriminate].
  - rewrite K. destruct np; try discriminate. eauto.
  - destruct np as [| | | |name| | | |]; try discriminate. rewrite R. eauto.
Qed.

(** An alias that is neither in the table nor a name inherited from
    [Object.prototype] is reported to the callback that [checker] settled on,
    and nothing is moved. *)
Lemma unknown_folder_reported st a src newPath callback np f :
  nonempty a = true -> nonempty src = true -> existsSync st src = true ->
  get_folder st a = Absent ->
  normalise (VStr src) newPath callback = Some (np, VFun f) ->
  put st (VStr a) (VStr src) newPath callback = mkResult st [(f, [UnknownFolderError])] Returned
  /\ add st (VStr a) (VStr src) newPath callback = mkResult st [(f, [UnknownFolderError])] Returned.
Proof.
  intros Ha Hs He Hf Hn. unfold put, add.
  rewrite (checker_unknown_alias st (VStr a) (VStr src) newPath callback np (VFun f));
    [auto| | |exact Hn].
  - unfold arguments_valid. simpl. now rewrite Ha, Hs, He.
  - unfold folder_known. simpl. now rewrite Hf.
Qed.

Lemma invalid_arguments_reported st folder oldPath newPath callback np f :
  truthy folder && truthy oldPath
    && jstype_eqb (typeof folder) TString && jstype_eqb (typeof oldPath) TString
    && existsSync st (str_of oldPath) = false ->
  normalise oldPath newPath callback = Some (np, VFun f) ->
  put st folder oldPath newPath callback = mkResult st [(f, [InvalidArgumentError])] Returned
  /\ add st folder oldPath newPath callback = mkResult st [(f, [InvalidArgumentError])] Returned.
Proof.
  intros Hg Hn. unfold put, add.
  now rewrite (checker_invalid_arguments _ _ _ _ _ _ _ Hg Hn).
Qed.

(** C6. [add('nope', '/tmp/a.jpg', 'b.jpg')], with the optional callback left
    out: the alias is unknown, and the operation throws a [TypeError] where
    it should report the unknown folder. Nothing is moved. *)
Theorem unknown_folder_without_callback_throws :
  let st := example false in
  let r := add st (VStr "nope") (VStr "/tmp/a.jpg") (VStr "b.jpg") VUndefined in
  folders st !! "nope" = None
  /\ existsSync st "/tmp/a.jpg" = true
  /\ calls r = [] /\ outcome r = Threw_TypeError /\ final r = st
  /\ put st (VStr "nope") (VStr "/tmp/a.jpg") (VStr "b.jpg") VUndefined = r.
Proof. vm_compute. repeat split; reflexivity. Qed.

(** C7. [put('images', 42, cb)]: the source is not a string, and the
    operation throws a [TypeError] out of [oldPath.split] before the check
    that would report it; the same happens for [put('images')]. Nothing is
    moved and the callback is not called. *)
Theorem non_string_source_throws :
  let st := example false in
  let r := put st (VStr "images") (VNum 42) (VFun (Callback 0)) VUndefined in
  calls r = [] /\ outcome r = Threw_TypeError /\ final r = st
  /\ add st (VStr "images") (VNum 42) (VFun (Callback 0)) VUndefined = r
  /\ put st (VStr "images") VUndefined VUndefined VUndefined = r.
Proof. vm_compute. repeat split; reflexivity. Qed.

(** C9. [put('images', '/tmp/a.jpg', undefined, cb)]: the destination name is
    left out and a callback is given in fourth place. [checker] replaces the
    callback by its own empty function, so the file is moved and [cb] is
    never called. *)
Theorem supplied_callback_never_fires :
  let st := example false in
  let r := put st (VStr "images") (VStr "/tmp/a.jpg") VUndefined (VFun (Callback 0)) in
  calls r = [(Noop, [VNull; VData "a.jpg" "/home/u/images/a.jpg"])]
  /\ fired (Callback 0) r = 0
  /\ outcome r = Returned
  /\ disk (final r) !! "/home/u/images/a.jpg" = Some (File "A")
  /\ disk (final r) !! "/tmp/a.jpg" = None
  /\ fired (Callback 0)
       (add st (VStr "images") (VStr "/tmp/a.jpg") (VStr "") (VFun (Callback 0))) = 0.
Proof. vm_compute. repeat split; reflexivity. Qed.

(** ** What [put] and [add] never touch *)

Lemma move_registry st oldPath newPath callback :
  cwd (final (move st oldPath newPath callback)) = cwd st
  /\ folders (final (move st oldPath newPath callback)) = folders st
  /\ safenames (final (move st oldPath newPath callback)) = safenames st.
Proof.
  unfold move. destruct (fs_rename _ _ _); rewrite invoke_later_final; auto.
Qed.

(** X1. [put] and [add] never change the alias table, the [safenames] flag or
    the working directory, whatever their arguments and however they end. *)
Theorem put_add_keep_registry st folder oldPath newPath callback :
  let rp := put st folder oldPath newPath callback in
  let ra := add st folder oldPath newPath callback in
  (folders (final rp) = folders st /\ safenames (final rp) = safenames st
   /\ cwd (final rp) = cwd st)
  /\ (folders (final ra) = folders st /\ safenames (final ra) = safenames st
      /\ cwd (final ra) = cwd st).
Proof.
  simpl. unfold put, add.
  destruct (checker st folder oldPath newPath callback) as [p cb|r] eqn:C.
  - split.
    + destruct (move_registry st (str_of oldPath) p cb) as (? & ? & ?). auto.
    + destruct (tools.finalName st p) as [q|]; [|auto].
      destruct (move_registry st (str_of oldPath) q cb) as (? & ? & ?). auto.
  - apply checker_refused_state in C. rewrite C. auto.
Qed.

(** X2. A call that fails the argument check, or whose alias gives nothing
    usable at line 64 (no own property and no inherited one, or the empty
    path), leaves the disk and the Filesaver as they were: this holds for
    every shape of the optional arguments, also when the call ends in a
    [TypeError]. *)
Theorem refused_call_changes_nothing st folder oldPath newPath callback :
  arguments_valid st folder oldPath = false
  \/ folder_known st (str_of folder) = false ->
  final (put st folder oldPath newPath callback) = st
  /\ final (add st folder oldPath newPath callback) = st.
Proof.
  intros H. unfold put, add.
  destruct (checker st folder oldPath newPath callback) as [p cb|r] eqn:C.
  - exfalso. apply checker_data_inv in C as (V & name & _ & K).
    destruct H as [H|H]; [congruence|]. unfold folder_known in H.
    destruct K as [(dir & G & N & _)|(G & _)]; rewrite G in H; congruence.
  - apply checker_refused_state in C. auto.
Qed.

Lemma refused_call_changes_nothing_witness :
  final (put (example false) (VStr "images") (VStr "/tmp/missing.jpg")
             (VStr "x.jpg") VUndefined) = example false
  /\ final (add (example false) (VStr "images") (VStr "/tmp/missing.jpg")
                (VStr "x.jpg") VUndefined) = example false.
Proof.
  apply (refused_call_changes_nothing (example false) (VStr "images")
           (VStr "/tmp/missing.jpg") (VStr "x.jpg") VUndefined).
  left. vm_compute. reflexivity.
Defined.

(** ** How often the callback is called *)

(** Once the shuffle has settled on a string for the name and on a function
    for the callback, and unless the alias is only an inherited name, [put]
    calls that function exactly once and returns. *)
Lemma put_settled_once st folder oldPath newPath callback name f :
  normalise oldPath newPath callback = Some (VStr name, VFun f) ->
  get_folder st (str_of folder) <> Inherited ->
  exists args,
    calls (put st folder oldPath newPath callback) = [(f, args)]
    /\ outcome (put st folder oldPath newPath callback) = Returned
    /\ (args = [InvalidArgumentError] \/ args = [UnknownFolderError]
        \/ (exists e, args = [VError e])
        \/ exists filename filepath, args = [VNull; VData filename filepath]).
Proof.
  intros Hn G. unfold put.
  destruct (checker st folder oldPath newPath callback) as [t cb|r] eqn:C.
  - apply checker_data_inv in C as (_ & name' & Hn' & _).
    rewrite Hn in Hn'. injection Hn' as _ <-.
    unfold move. destruct (fs_rename _ _ _) as [e|d]; simpl; eauto 10.
  - apply checker_refused_inv in C. rewrite Hn in C.
    destruct C as [[_ ->]|[(_ & _ & ->)|(_ & K & R & _)]]; simpl; eauto 10.
    exfalso. unfold target_resolves, folder_known in *.
    destruct (get_folder st (str_of folder)); [discriminate|now apply G|discriminate].
Qed.

(** X3. A call of [put] with all four arguments, the destination name a
    non-empty string and the callback a function, never throws, unless the
    alias is only a name inherited from [Object.prototype]: the callback is
    called exactly once, with one error or with [null] and a result. *)
Theorem put_full_call_fires_once st folder oldPath name f :
  nonempty name = true ->
  get_folder st (str_of folder) <> Inherited ->
  exists args,
    calls (put st folder oldPath (VStr name) (VFun f)) = [(f, args)]
    /\ outcome (put st folder oldPath (VStr name) (VFun f)) = Returned
    /\ (args = [InvalidArgumentError] \/ args = [UnknownFolderError]
        \/ (exists e, args = [VError e])
        \/ exists filename filepath, args = [VNull; VData filename filepath]).
Proof.
  intros N G. apply (put_settled_once _ _ _ _ _ name f); [|exact G].
  now apply normalise_full.
Qed.

Lemma put_full_call_fires_once_witness :
  exists args,
    calls (put (example false) (VStr "images") (VNum 42) (VStr "x.jpg")
               (VFun (Callback 7))) = [(Callback 7, args)]
    /\ outcome (put (example false) (VStr "images") (VNum 42) (VStr "x.jpg")
                    (VFun (Callback 7))) = Returned
    /\ (args = [InvalidArgumentError] \/ args = [UnknownFolderError]
        \/ (exists e, args = [VError e])
        \/ exists filename filepath, args = [VNull; VData filename filepath]).
Proof.
  apply (put_full_call_fires_once (example false) (VStr "images") (VNum 42) "x.jpg"
           (Callback 7)).
  - reflexivity.
  - vm_compute. discriminate.
Defined.

(** X4. With a string as source, and unless the alias is only a name
    inherited from [Object.prototype], [put(folder, src, cb)] calls [cb]
    exactly once and returns, and [put(folder, src)] returns after one call
    to the empty function of [checker]: a result given to nobody. *)
Theorem put_short_calls_fire_once st folder src f :
  get_folder st (str_of folder) <> Inherited ->
  (exists args,
     calls (put st folder (VStr src) (VFun f) VUndefined) = [(f, args)]
     /\ outcome (put st folder (VStr src) (VFun f) VUndefined) = Returned)
  /\ (exists args,
        calls (put st folder (VStr src) VUndefined VUndefined) = [(Noop, args)]
        /\ outcome (put st folder (VStr src) VUndefined VUndefined) = Returned).
Proof.
  intros G. split.
  - destruct (put_settled_once st folder (VStr src) (VFun f) VUndefined _ f
                (normalise_three src f) G) as (args & C & O & _). eauto.
  - destruct (put_settled_once st folder (VStr src) VUndefined VUndefined _ Noop
                (normalise_two src) G) as (args & C & O & _). eauto.
Qed.

Lemma put_short_calls_fire_once_witness :
  (exists args,
     calls (put (example false) (VStr "images") (VStr "/tmp/a.jpg") (VFun (Callback 2))
                VUndefined) = [(Callback 2, args)]
     /\ outcome (put (example false) (VStr "images") (VStr "/tmp/a.jpg") (VFun (Callback 2))
                     VUndefined) = Returned)
  /\ (exists args,
        calls (put (example false) (VStr "images") (VStr "/tmp/a.jpg") VUndefined
                   VUndefined) = [(Noop, args)]
        /\ outcome (put (example false) (VStr "images") (VStr "/tmp/a.jpg") VUndefined
                        VUndefined) = Returned).
Proof.
  apply (put_short_calls_fire_once (example false) (VStr "images") "/tmp/a.jpg" (Callback 2)).
  vm_compute. discriminate.
Defined.

(** X5. Leaving the destination name out is the same as giving the last
    segment of the source path, as long as that segment is not empty. *)
Theorem name_defaults_to_last_segment st folder src f :
  nonempty (List.last (split "/" src) "") = true ->
  put st folder (VStr src) (VFun f) VUndefined
  = put st folder (VStr src) (VStr (List.last (split "/" src) "")) (VFun f)
  /\ add st folder (VStr src) (VFun f) VUndefined
     = add st folder (VStr src) (VStr (List.last (split "/" src) "")) (VFun f).
Proof.
  intros N.
  assert (checker st folder (VStr src) (VFun f) VUndefined
          = checker st folder (VStr src) (VStr (List.last (split "/" src) "")) (VFun f)) as E.
  { unfold checker. now rewrite normalise_three, (normalise_full _ _ f N). }
  unfold put, add. now rewrite E.
Qed.

Lemma name_defaults_to_last_segment_witness :
  put (example false) (VStr "images") (VStr "/tmp/a.jpg") (VFun (Callback 0)) VUndefined
  = put (example false) (VStr "images") (VStr "/tmp/a.jpg")
        (VStr (List.last (split "/" "/tmp/a.jpg") "")) (VFun (Callback 0))
  /\ add (example false) (VStr "images") (VStr "/tmp/a.jpg") (VFun (Callback 0)) VUndefined
     = add (example false) (VStr "images") (VStr "/tmp/a.jpg")
           (VStr (List.last (split "/" "/tmp/a.jpg") "")) (VFun (Callback 0)).
Proof.
  apply (name_defaults_to_last_segment (example false) (VStr "images") "/tmp/a.jpg"
           (Callback 0)).
  reflexivity.
Defined.

(** ** Errors reported to the callback *)

(** X6. Arguments that fail the check of [checker] (a folder or a source that
    is not a non-empty string, or a source that does not exist) are reported
    as ['folder or origin not valid'] to the callback the shuffle settled on,
    once, and nothing changes; the alias is not even looked up. *)
Theorem invalid_arguments_called_back st folder oldPath newPath callback np f :
  arguments_valid st folder oldPath = false ->
  normalise oldPath newPath callback = Some (np, VFun f) ->
  put st folder oldPath newPath callback
  = mkResult st [(f, [InvalidArgumentError])] Returned
  /\ add st folder oldPath newPath callback
     = mkResult st [(f, [InvalidArgumentError])] Returned.
Proof.
  intros V N. unfold put, add.
  now rewrite (checker_invalid _ _ _ _ _ _ _ V N).
Qed.

Lemma invalid_arguments_called_back_witness :
  put (example false) (VStr "nope") (VStr "/tmp/missing.jpg") (VFun (Callback 3)) VUndefined
  = mkResult (example false) [(Callback 3, [InvalidArgumentError])] Returned
  /\ add (example false) (VStr "nope") (VStr "/tmp/missing.jpg") (VFun (Callback 3)) VUndefined
     = mkResult (example false) [(Callback 3, [InvalidArgumentError])] Returned.
Proof.
  apply (invalid_arguments_called_back (example false) (VStr "nope")
           (VStr "/tmp/missing.jpg") (VFun (Callback 3)) VUndefined
           (VStr "missing.jpg") (Callback 3)).
  - vm_compute. reflexivity.
  - reflexivity.
Defined.

(** X7. With valid arguments, an alias that gives nothing usable at line 64
    (no own property and no inherited one, or the empty path) is reported
    as ['invalid folder'] to the callback the shuffle settled on, once, and
    nothing changes. *)
Theorem unknown_alias_called_back st folder oldPath newPath callback np f :
  arguments_valid st folder oldPath = true ->
  folder_known st (str_of folder) = false ->
  normalise oldPath newPath callback = Some (np, VFun f) ->
  put st folder oldPath newPath callback
  = mkResult st [(f, [UnknownFolderError])] Returned
  /\ add st folder oldPath newPath callback
     = mkResult st [(f, [UnknownFolderError])] Returned.
Proof.
  intros V U N. unfold put, add.
  now rewrite (checker_unknown_alias _ _ _ _ _ _ _ V U N).
Qed.

Lemma unknown_alias_called_back_witness :
  put (example false) (VStr "nope") (VStr "/tmp/a.jpg") (VStr "b.jpg") (VFun (Callback 3))
  = mkResult (example false) [(Callback 3, [UnknownFolderError])] Returned
  /\ add (example false) (VStr "nope") (VStr "/tmp/a.jpg") (VStr "b.jpg") (VFun (Callback 3))
     = mkResult (example false) [(Callback 3, [UnknownFolderError])] Returned.
Proof.
  apply (unknown_alias_called_back (example false) (VStr "nope") (VStr "/tmp/a.jpg")
           (VStr "b.jpg") (VFun (Callback 3)) (VStr "b.jpg") (Callback 3));
    vm_compute; reflexivity.
Defined.

(** ** When [put] throws *)

Lemma invoke_outcome st cb args :
  (outcome (invoke st cb args) = Threw_TypeError <-> typeof cb <> TFunction)
  /\ outcome (invoke st cb args) <> Threw_later
  /\ (outcome (invoke st cb args) = Returned <-> typeof cb = TFunction).
Proof. destruct cb; simpl; repeat split; intros H; congruence. Qed.

Lemma move_outcome st oldPath newPath cb :
  (outcome (move st oldPath newPath cb) = Threw_later <-> typeof cb <> TFunction)
  /\ outcome (move st oldPath newPath cb) <> Threw_TypeError
  /\ (outcome (move st oldPath newPath cb) = Returned <-> typeof cb = TFunction).
Proof.
  unfold move. destruct (fs_rename _ _ _); destruct cb; simpl;
    repeat split; intros H; congruence.
Qed.

(** X20. How [put] ends. It throws a [TypeError] itself in exactly these
    cases: the source is not a string where the shuffle needs its last
    segment; the checks fail or the alias gives nothing usable, and the
    callback the shuffle settled on is not a function; the checks pass and
    [path.resolve] meets an argument that is not a string. It returns, and a
    [TypeError] is raised afterwards in the completion callback of
    [fs.rename], exactly when the checks pass, the target is resolved and the
    settled callback is not a function. In every other case it returns and
    no error is raised. *)
Theorem put_throws_iff st folder oldPath newPath callback :
  let r := put st folder oldPath newPath callback in
  let passed := arguments_valid st folder oldPath && folder_known st (str_of folder) in
  (outcome r = Threw_TypeError
   <-> match normalise oldPath newPath callback with
       | None => True
       | Some (np, cb) =>
           if passed then target_resolves st folder np = false
           else typeof cb <> TFunction
       end)
  /\ (outcome r = Threw_later
      <-> match normalise oldPath newPath callback with
          | None => False
          | Some (np, cb) =>
              passed = true /\ target_resolves st folder np = true
              /\ typeof cb <> TFunction
          end)
  /\ (outcome r = Threw_TypeError \/ outcome r = Threw_later \/ outcome r = Returned).
Proof.
  intros r passed. subst r passed. unfold put.
  destruct (checker st folder oldPath newPath callback) as [t cb'|r] eqn:C.
  - destruct (move_outcome st (str_of oldPath) t cb') as (L & NT & R).
    apply checker_data_inv in C as (V & name & -> & K).
    assert (folder_known st (str_of folder) = true
            /\ target_resolves st folder (VStr name) = true) as [Kn Re].
    { unfold folder_known, target_resolves.
      destruct K as [(dir & -> & N & _)|(-> & A & _)]; auto. }
    rewrite V, Kn, Re. simpl. split; [|split].
    + split; [intros H; now apply NT in H|discriminate].
    + rewrite L. tauto.
    + destruct cb'; simpl in *; unfold move;
        destruct (fs_rename _ _ _); simpl; auto.
  - apply checker_refused_inv in C.
    destruct (normalise oldPath newPath callback) as [[np cb]|].
    + destruct C as [[V ->]|[(V & K & ->)|(V & K & R & ->)]]; rewrite V, ?K; simpl.
      * destruct (invoke_outcome st cb [InvalidArgumentError]) as (T & NL & Rt).
        split; [exact T|]. split; [split; [intros H; now apply NL in H|intros (? & _); discriminate]|].
        destruct cb; simpl; auto.
      * destruct (invoke_outcome st cb [UnknownFolderError]) as (T & NL & Rt).
        rewrite ?andb_false_r.
        split; [exact T|]. split; [split; [intros H; now apply NL in H|intros (? & _); discriminate]|].
        destruct cb; simpl; auto.
      * rewrite R. split; [tauto|]. split; [|auto].
        split; [discriminate|intros (_ & ? & _); discriminate].
    + subst r. simpl. split; [tauto|]. split; [|auto].
      split; [discriminate|tauto].
Qed.

(** ** What [checker] accepts *)

(** A registered alias and an existing source pass the checks: [checker]
    hands back the resolved (and, with [safenames], sanitized) target. *)
Lemma checker_accepts st a dir src newPath callback name cb :
  folders st !! a = Some dir ->
  nonempty a = true -> nonempty dir = true -> nonempty src = true ->
  existsSync st src = true ->
  normalise (VStr src) newPath callback = Some (VStr name, cb) ->
  checker st (VStr a) (VStr src) newPath callback
  = Data (checkSafeName st (path_resolve (cwd st) [dir; name])) cb.
Proof.
  intros Hf Ha Hd Hs He Hn. unfold checker. rewrite Hn. simpl.
  rewrite Ha, Hs, He. simpl. now rewrite (get_folder_own _ _ _ Hf), Hd.
Qed.

(** An entry found by the kernel is not the empty path. *)
Lemma existsSync_nonempty st p : existsSync st p = true -> nonempty p = true.
Proof. unfold existsSync. now intros [N _]%andb_prop. Qed.

(** ** Moving a regular file *)


Lemma fs_rename_file st src target c :
  disk_lookup (disk st) (key st src) = Some (File c) ->
  fs_rename st src target = disk_rename (disk st) (key st src) (key st target).
Proof.
  intros Hs. unfold fs_rename. rewrite Hs. simpl is_dir. now rewrite andb_false_r.
Qed.

Lemma move_file st src target cb c :
  disk_lookup (disk st) (key st src) = Some (File c) ->
  is_dir (disk_lookup (disk st) (dirname (key st target))) = true ->
  is_dir (disk_lookup (disk st) (key st target)) = false ->
  move st src target cb
  = invoke_later (set_disk st (<[key st target := File c]> (delete (key st src) (disk st))))
                 cb [VNull; VData (List.last (split "/" target) "") target].
Proof.
  intros Hs Hp Ht. unfold move.
  now rewrite (fs_rename_file _ _ _ _ Hs), (disk_rename_file _ _ _ _ Hs Hp Ht).
Qed.

(** ** [put] overwrites *)



(** ** Where the target lies *)

(** X9. [checker] resolves a plain destination name (no separator in it,
    not empty, not [.] or [..]) to the entry of that name directly in the
    directory of the alias: with [safenames] off, the target has that
    directory as parent and that name as last segment, and it is a normalised
    path. *)
Theorem plain_name_lands_in_folder st a dir src name cb :
  safenames st = false ->
  folders st !! a = Some dir -> nonempty a = true -> nonempty dir = true ->
  nonempty src = true -> existsSync st src = true ->
  proper_seg name = true ->
  exists target,
    checker st (VStr a) (VStr src) (VStr name) cb = Data target cb
    /\ dirname target = key st dir
    /\ List.last (split "/" target) "" = name
    /\ key st target = target.
Proof.
  intros S L Na Nd Ns E P.
  destruct (proper_seg_relative name P) as [Nn _].
  exists (of_segs (segs_of (key st dir) ++ [name])).
  pose proof (segs_of_path_resolve_proper (cwd st) [dir]) as Pd. fold (key st dir) in Pd.
  split; [|split; [|split]].
  - rewrite (checker_accepts st a dir src (VStr name) cb name cb L Na Nd Ns E).
    + now rewrite (checkSafeName_off _ _ S), (path_resolve_child _ _ _ Nd P).
    + unfold normalise. simpl. rewrite Nn.
      now destruct (negb (truthy cb)).
  - rewrite (proj2 (child_parts _ _ Pd P)). apply of_segs_segs_of_resolve.
  - apply (proj1 (child_parts _ _ Pd P)).
  - apply path_resolve_of_segs, proper_snoc; assumption.
Qed.

Lemma plain_name_lands_in_folder_witness :
  exists target,
    checker (example false) (VStr "images") (VStr "/tmp/a.jpg") (VStr "photo.jpg")
            (VFun (Callback 0)) = Data target (VFun (Callback 0))
    /\ dirname target = key (example false) "./images"
    /\ List.last (split "/" target) "" = "photo.jpg"
    /\ key (example false) target = target.
Proof.
  apply (plain_name_lands_in_folder (example false) "images" "./images" "/tmp/a.jpg"
           "photo.jpg" (VFun (Callback 0)));
    vm_compute; reflexivity.
Defined.

(** X10. An absolute destination name overrides the alias: the directory of
    the alias plays no part in the target, which is the name itself, resolved
    (and sanitized when [safenames] is on). *)
Theorem absolute_name_ignores_folder st a dir src name cb :
  folders st !! a = Some dir -> nonempty a = true -> nonempty dir = true ->
  nonempty src = true -> existsSync st src = true ->
  is_absolute name = true ->
  checker st (VStr a) (VStr src) (VStr name) cb
  = Data (checkSafeName st (key st name)) cb
  /\ put st (VStr a) (VStr src) (VStr name) cb
     = move st src (checkSafeName st (key st name)) cb.
Proof.
  intros L Na Nd Ns E A.
  assert (checker st (VStr a) (VStr src) (VStr name) cb
          = Data (checkSafeName st (key st name)) cb) as C.
  { rewrite (checker_accepts st a dir src (VStr name) cb name cb L Na Nd Ns E).
    - unfold key. now rewrite (path_resolve_absolute _ dir _ A).
    - unfold normalise. simpl. rewrite (is_absolute_nonempty _ A).
      now destruct (negb (truthy cb)). }
  split; [exact C|]. unfold put. now rewrite C.
Qed.

Lemma absolute_name_ignores_folder_witness :
  checker (example false) (VStr "images") (VStr "/tmp/a.jpg") (VStr "/home/x.jpg")
          (VFun (Callback 0))
  = Data (checkSafeName (example false) (key (example false) "/home/x.jpg"))
         (VFun (Callback 0))
  /\ put (example false) (VStr "images") (VStr "/tmp/a.jpg") (VStr "/home/x.jpg")
         (VFun (Callback 0))
     = move (example false) "/tmp/a.jpg"
            (checkSafeName (example false) (key (example false) "/home/x.jpg"))
            (VFun (Callback 0)).
Proof.
  apply (absolute_name_ignores_folder (example false) "images" "./images" "/tmp/a.jpg"
           "/home/x.jpg" (VFun (Callback 0)));
    vm_compute; reflexivity.
Defined.

(** X11. The whole way of a successful [put]: with [safenames] off, an alias
    whose directory exists, a source that [fs.existsSync] finds and that is a
    regular file, and a plain name that is not the name of a directory
    there, the file ends up under that name in the directory of the alias,
    whatever was there before, the source path is given up, and the callback
    is called once with [{filename: name, filepath: directory/name}]. *)
Theorem put_plain_name_succeeds st a dir src name f c :
  safenames st = false ->
  folders st !! a = Some dir -> nonempty a = true -> dir_at st dir = true ->
  existsSync st src = true ->
  disk_lookup (disk st) (key st src) = Some (File c) ->
  proper_seg name = true ->
  let target := of_segs (segs_of (key st dir) ++ [name]) in
  is_dir (disk_lookup (disk st) target) = false ->
  put st (VStr a) (VStr src) (VStr name) (VFun f)
  = mkResult (set_disk st (<[target := File c]> (delete (key st src) (disk st))))
             [(f, [VNull; VData name target])] Returned.
Proof.
  intros S L Na D E Hs P target Ht.
  apply andb_prop in D as [Nd Dd].
  pose proof (existsSync_nonempty st src E) as Ns.
  destruct (proper_seg_relative name P) as [Nn _].
  pose proof (segs_of_path_resolve_proper (cwd st) [dir]) as Pd. fold (key st dir) in Pd.
  destruct (child_parts _ _ Pd P) as [Hlast Hdir]. fold target in Hlast, Hdir.
  assert (key st target = target) as K
    by (apply path_resolve_of_segs, proper_snoc; assumption).
  unfold put.
  rewrite (checker_accepts st a dir src (VStr name) (VFun f) name (VFun f) L Na Nd Ns E)
    by (now apply normalise_full).
  rewrite (checkSafeName_off _ _ S), (path_resolve_child _ _ _ Nd P).
  fold (key st dir). fold target. simpl str_of.
  rewrite (move_file st src target (VFun f) c Hs); rewrite ?K, ?Hdir.
  - unfold invoke_later. now rewrite Hlast.
  - unfold key at 1. now rewrite of_segs_segs_of_resolve.
  - exact Ht.
Qed.

Lemma put_plain_name_succeeds_witness :
  put example_after_put (VStr "images") (VStr "/tmp/b.jpg") (VStr "a.jpg")
      (VFun (Callback 1))
  = mkResult
      (set_disk example_after_put
         (<[of_segs (segs_of (key example_after_put "./images") ++ ["a.jpg"]) := File "B"]>
            (delete (key example_after_put "/tmp/b.jpg") (disk example_after_put))))
      [(Callback 1,
        [VNull; VData "a.jpg"
                  (of_segs (segs_of (key example_after_put "./images") ++ ["a.jpg"]))])]
      Returned.
Proof.
  apply (put_plain_name_succeeds example_after_put "images" "./images" "/tmp/b.jpg"
           "a.jpg" (Callback 1) "B");
    vm_compute; reflexivity.
Defined.

(** ** Moving never loses content *)

(** X12. [put] and [add] never lose a regular file: whatever the arguments
    and however the call ends, either the disk is as it was, or the only
    change is that the content of the source is now at some target and the
    source path is given up. *)
Theorem put_add_keep_content st folder src newPath callback c :
  disk_lookup (disk st) (key st src) = Some (File c) ->
  let moved d :=
    d = disk st
    \/ exists target, d = <[key st target := File c]> (delete (key st src) (disk st)) in
  moved (disk (final (put st folder (VStr src) newPath callback)))
  /\ moved (disk (final (add st folder (VStr src) newPath callback))).
Proof.
  intros Hs moved.
  assert (forall t cb, moved (disk (final (move st src t cb)))) as M.
  { intros t cb. unfold move, fs_rename. rewrite Hs. simpl is_dir. rewrite andb_false_r.
    unfold disk_rename. rewrite Hs.
    destruct (parent_error (disk st) (key st t));
      [rewrite invoke_later_final; now left|].
    destruct (string_eqb (key st src) "/" || string_eqb (key st t) "/");
      [rewrite invoke_later_final; now left|].
    destruct (disk_lookup (disk st) (key st t)) as [[c'|]|];
      rewrite invoke_later_final; simpl; [right; eauto|now left|right; eauto]. }
  unfold put, add.
  destruct (checker st folder (VStr src) newPath callback) as [t cb|r] eqn:C.
  - split; [apply M|]. simpl str_of.
    destruct (tools.finalName st t); [apply M|now left].
  - apply checker_refused_state in C. rewrite C. split; now left.
Qed.

Lemma put_add_keep_content_witness :
  let moved d :=
    d = disk (example false)
    \/ exists target,
        d = <[key (example false) target := File "A"]>
              (delete (key (example false) "/tmp/a.jpg") (disk (example false))) in
  moved (disk (final (put (example false) (VStr "images") (VStr "/tmp/a.jpg")
                          (VStr "x.jpg") (VFun (Callback 0)))))
  /\ moved (disk (final (add (example false) (VStr "images") (VStr "/tmp/a.jpg")
                             (VStr "x.jpg") (VFun (Callback 0))))).
Proof.
  apply (put_add_keep_content (example false) (VStr "images") "/tmp/a.jpg"
           (VStr "x.jpg") (VFun (Callback 0)) "A").
  vm_compute. reflexivity.
Defined.



(** ** Failed moves *)



(** ** The candidates of the collision resolver *)

Lemma split_ext_app name :
  fst (tools.split_ext name) +:+ snd (tools.split_ext name) = name.
Proof.
  unfold tools.split_ext.
  pose proof (join_split "." name) as J.
  destruct (split "." name) as [|p [|p' t]] eqn:S; simpl fst; simpl snd;
    try apply append_nil_r.
  assert (p :: p' :: t <> []) as N by discriminate.
  rewrite (app_removelast_last "" N) in J at 1.
  rewrite join_snoc in J.
  - exact J.
  - simpl. destruct t; discriminate.
Qed.

Lemma suffixed_free name n :
  has_char "/" name = false -> has_char "/" (tools.suffixed name n) = false.
Proof.
  intros F. rewrite <- (split_ext_app name), has_char_app in F.
  apply orb_false_elim in F as [Fb Fe].
  unfold tools.suffixed. destruct (tools.split_ext name) as [b e]. simpl in *.
  rewrite !has_char_app, Fb, Fe, (pretty_nat_chars _ _ digit_not_slash).
  reflexivity.
Qed.

Lemma suffixed_underscore name n : has_char "_" (tools.suffixed name n) = true.
Proof.
  unfold tools.suffixed. destruct (tools.split_ext name) as [b e].
  rewrite !has_char_app. change (has_char "_" "_") with true.
  now rewrite orb_true_r.
Qed.

Lemma suffixed_inj name n m :
  tools.suffixed name n = tools.suffixed name m -> n = m.
Proof.
  unfold tools.suffixed. destruct (tools.split_ext name) as [b e]. intros H.
  apply String.app_inj, String.app_inj, append_inj_r in H.
  now apply pretty_nat_inj in H.
Qed.

(** A proper segment: kept as it is by [normalize_segs]. *)
Lemma suffixed_proper name n :
  string_eqb (tools.suffixed name n) "" || string_eqb (tools.suffixed name n) "." = false
  /\ string_eqb (tools.suffixed name n) ".." = false.
Proof.
  pose proof (suffixed_underscore name n) as U. unfold string_eqb.
  split; [apply orb_false_intro|]; apply bool_decide_eq_false; intros E;
    rewrite E in U; discriminate.
Qed.

(** The string put in front of the last segment by [join]. *)
Lemma join_snoc_prefix (dirs : list string) :
  exists q, ends_sep q
    /\ (q <> "" -> has_char "/" q = true)
    /\ forall x, join "/" (dirs ++ [x]) = q +:+ x.
Proof.
  destruct dirs as [|d dirs].
  - exists "". split; [now left|]. split; [congruence|reflexivity].
  - exists (join "/" (d :: dirs) +:+ "/"). split; [right; eauto|]. split.
    + intros _. rewrite has_char_app. apply orb_true_r.
    + intros x. rewrite join_snoc by discriminate. now rewrite append_assoc.
Qed.

(** What [path.resolve] scans for a one-argument call on [q +:+ x]. *)
Lemma resolve_gather_prefix wd q :
  ends_sep q -> (q <> "" -> has_char "/" q = true) ->
  exists p, ends_sep p /\
    forall x, has_char "/" x = false -> nonempty x = true ->
      resolve_gather wd [q +:+ x] "" = p +:+ x +:+ "/".
Proof.
  intros Hq Hs.
  assert (forall x, nonempty x = true -> nonempty (q +:+ x) = true) as Hne.
  { intros x Hx. destruct q; [exact Hx|reflexivity]. }
  assert (forall x, has_char "/" x = false -> is_absolute (q +:+ x) = is_absolute q) as Ha.
  { intros x Hx. destruct q as [|a q]; [|reflexivity].
    change ("" +:+ x) with x. simpl.
    destruct (is_absolute x) eqn:A; [|reflexivity].
    apply is_absolute_has_char in A. congruence. }
  destruct (is_absolute q) eqn:A.
  - exists q. split; [exact Hq|]. intros x Fx Nx. simpl.
    rewrite (Hne x Nx), (Ha x Fx), append_nil_r. apply append_assoc.
  - exists (wd +:+ "/" +:+ q). split.
    + right. destruct Hq as [->|[r ->]].
      * exists wd. reflexivity.
      * exists (wd +:+ "/" +:+ r). now rewrite !append_assoc.
    + intros x Fx Nx. simpl.
      rewrite (Hne x Nx), (Ha x Fx), append_nil_r. now rewrite !append_assoc.
Qed.

(** The filesystem entries of the candidates: one fixed directory, and the
    suffixed name as last segment. *)
Lemma key_candidate st route :
  exists b, forall n,
    key st (tools.candidate route n)
    = of_segs (b ++ [tools.suffixed (List.last (split "/" route) "") n]).
Proof.
  unfold tools.candidate, pop, key, path_resolve.
  set (name := List.last (split "/" route) "").
  destruct (join_snoc_prefix (removelast (split "/" route))) as (q & Hq & Hs & Hj).
  destruct (resolve_gather_prefix (cwd st) q Hq Hs) as (p & Hp & Hr).
  exists (normalize_segs [] (removelast (split "/" p))). intros n.
  assert (has_char "/" (tools.suffixed name n) = false) as F
    by apply suffixed_free, last_split_free.
  destruct (suffixed_proper name n) as [P1 P2].
  simpl rev. rewrite Hj, Hr; [|exact F|].
  2:{ apply (nonempty_has_char "_"), suffixed_underscore. }
  rewrite (split_ends _ _ Hp F), normalize_segs_app. simpl.
  rewrite P1, P2. simpl. now rewrite rev_involutive.
Qed.

Lemma key_candidate_inj st route n m :
  key st (tools.candidate route n) = key st (tools.candidate route m) -> n = m.
Proof.
  destruct (key_candidate st route) as [b Hb]. rewrite !Hb.
  intros H%of_segs_snoc_inj. now apply suffixed_inj in H.
Qed.

Lemma candidate_nonempty route n : nonempty (tools.candidate route n) = true.
Proof.
  unfold tools.candidate, pop.
  destruct (join_snoc_prefix (removelast (split "/" route))) as (q & _ & _ & Hj).
  rewrite Hj. apply (nonempty_has_char "_").
  rewrite has_char_app, suffixed_underscore. apply orb_true_r.
Qed.

(** A candidate that exists has its entry on the disk. *)
Lemma existsSync_candidate st route n :
  existsSync st (tools.candidate route n) = true ->
  key st (tools.candidate route n) ∈ dom (disk st).
Proof.
  intros [x Hx]%existsSync_entry. revert Hx. unfold disk_lookup.
  destruct (key_candidate st route) as [b Hb]. rewrite Hb.
  rewrite of_segs_snoc_not_root
    by apply (nonempty_has_char "_"), suffixed_underscore.
  intros Hx. apply elem_of_dom. eauto.
Qed.

(** The search ends. [occupied] is any finite set holding the entries of the
    existing candidates from [n] on; each failed test removes one element. *)
Lemma search_finds_from st route fuel :
  forall (occupied : gset string) n,
    size occupied < fuel ->
    (forall m, n <= m -> existsSync st (tools.candidate route m) = true ->
               key st (tools.candidate route m) ∈ occupied) ->
    exists m, n <= m
      /\ tools.search st route fuel n = Some (tools.candidate route m)
      /\ existsSync st (tools.candidate route m) = false
      /\ forall j, n <= j < m -> existsSync st (tools.candidate route j) = true.
Proof.
  induction fuel as [|fuel IH]; intros occupied n Hsize Hocc; [lia|].
  simpl. destruct (existsSync st (tools.candidate route n)) eqn:E.
  - pose proof (Hocc n (Nat.le_refl n) E) as Hin.
    destruct (IH (occupied ∖ {[key st (tools.candidate route n)]}) (S n))
      as (m & Hm & Hs & Hfree & Hbelow).
    + pose proof (size_difference occupied {[key st (tools.candidate route n)]}) as D.
      rewrite size_singleton in D.
      assert ({[key st (tools.candidate route n)]} ⊆ occupied) as Sub by set_solver.
      specialize (D Sub).
      assert (size occupied <> 0) by (apply size_non_empty_iff; set_solver).
      lia.
    + intros m Hm Em. apply elem_of_difference. split; [apply Hocc; [lia|exact Em]|].
      rewrite elem_of_singleton. intros K%key_candidate_inj. lia.
    + exists m. split; [lia|]. split; [exact Hs|]. split; [exact Hfree|].
      intros j Hj. destruct (decide (j = n)) as [->|]; [exact E|].
      apply Hbelow. lia.
  - exists n. split; [lia|]. split; [reflexivity|]. split; [exact E|].
    intros j Hj. lia.
Qed.

Lemma search_finds st route :
  exists m, 1 <= m
    /\ tools.search st route (S (size (disk st))) 1 = Some (tools.candidate route m)
    /\ existsSync st (tools.candidate route m) = false
    /\ forall j, 1 <= j < m -> existsSync st (tools.candidate route j) = true.
Proof.
  apply (search_finds_from st route _ (dom (disk st))).
  - rewrite size_dom. lia.
  - intros m _ E. now apply existsSync_candidate.
Qed.

(** The shape of a candidate: the counter goes after the whole basename,
    whatever the basename ends with, and before the extension. *)
Lemma split_ext_dot b e :
  has_char "." e = false -> tools.split_ext (b +:+ "." +:+ e) = (b, "." +:+ e).
Proof.
  intros De. unfold tools.split_ext.
  change (b +:+ "." +:+ e) with (b +:+ String "." e).
  rewrite split_app_sep, (split_free _ _ De).
  pose proof (split_not_nil "." b) as N. pose proof (join_split "." b) as J.
  destruct (split "." b) as [|p t] eqn:S; [congruence|].
  assert (((p :: t) ++ [e])%list = p :: (t ++ [e])%list) as -> by reflexivity.
  destruct (t ++ [e])%list eqn:T; [now destruct t|].
  rewrite <- T.
  change (p :: (t ++ [e])%list) with ((p :: t) ++ [e])%list.
  now rewrite removelast_snoc, last_snoc, J.
Qed.

Lemma split_ext_no_dot b : has_char "." b = false -> tools.split_ext b = (b, "").
Proof. intros Db. unfold tools.split_ext. now rewrite (split_free _ _ Db). Qed.

Lemma candidate_in_dir d name n :
  has_char "/" name = false ->
  tools.candidate (d +:+ "/" +:+ name) n = d +:+ "/" +:+ tools.suffixed name n.
Proof.
  intros F. unfold tools.candidate, pop.
  rewrite (split_dir_name d name F), last_snoc, removelast_snoc.
  rewrite join_snoc by apply split_not_nil.
  now rewrite join_split.
Qed.

Lemma candidate_with_extension d b e n :
  has_char "/" b = false -> has_char "/" e = false -> has_char "." e = false ->
  tools.candidate (d +:+ "/" +:+ b +:+ "." +:+ e) n
  = d +:+ "/" +:+ b +:+ "_" +:+ pretty n +:+ "." +:+ e.
Proof.
  intros Fb Fe De. rewrite candidate_in_dir.
  - unfold tools.suffixed. now rewrite (split_ext_dot b e De).
  - rewrite !has_char_app, Fb, Fe. reflexivity.
Qed.

Lemma candidate_without_extension d b n :
  has_char "/" b = false -> has_char "." b = false ->
  tools.candidate (d +:+ "/" +:+ b) n = d +:+ "/" +:+ b +:+ "_" +:+ pretty n.
Proof.
  intros Fb Db. rewrite (candidate_in_dir d b n Fb).
  unfold tools.suffixed. rewrite (split_ext_no_dot b Db).
  now rewrite append_nil_r.
Qed.

(** C1. The collision resolver of [add]: a route that does not exist is
    returned unchanged; for one that exists the result is the candidate
    [directory/basename_N.extension] with the least [N >= 1] that does not
    exist; the counter is appended to the whole basename, whatever it ends
    with; and the result never exists when it is returned. *)
Theorem finalName_first_free st route :
  (existsSync st route = false -> tools.finalName st route = Some route)
  /\ (existsSync st route = true ->
      exists n, 1 <= n
        /\ tools.finalName st route = Some (tools.candidate route n)
        /\ forall j, 1 <= j < n -> existsSync st (tools.candidate route j) = true)
  /\ (exists q, tools.finalName st route = Some q /\ existsSync st q = false)
  /\ (forall d b e n,
        has_char "/" b = false -> has_char "/" e = false -> has_char "." e = false ->
        tools.candidate (d +:+ "/" +:+ b +:+ "." +:+ e) n
        = d +:+ "/" +:+ b +:+ "_" +:+ pretty n +:+ "." +:+ e)
  /\ (forall d b n,
        has_char "/" b = false -> has_char "." b = false ->
        tools.candidate (d +:+ "/" +:+ b) n = d +:+ "/" +:+ b +:+ "_" +:+ pretty n).
Proof.
  destruct (search_finds st route) as (m & Hm & Hs & Hfree & Hbelow).
  unfold tools.finalName.
  split; [now intros ->|]. split; [|split; [|split]].
  - intros ->. exists m. auto.
  - destruct (existsSync st route) eqn:E; eauto.
  - apply candidate_with_extension.
  - apply candidate_without_extension.
Qed.

(** With [./images/a.jpg] taken the resolver answers [a_1.jpg]; a name that
    already ends in [_1] gets a second suffix. *)
Lemma finalName_first_free_witness :
  existsSync example_after_put "/home/u/images/a.jpg" = true
  /\ tools.finalName example_after_put "/home/u/images/a.jpg"
     = Some "/home/u/images/a_1.jpg"
  /\ (exists n, 1 <= n
        /\ tools.finalName example_after_put "/home/u/images/a.jpg"
           = Some (tools.candidate "/home/u/images/a.jpg" n))
  /\ tools.candidate "/home/u/images/photo_1.jpg" 1 = "/home/u/images/photo_1_1.jpg".
Proof.
  destruct (finalName_first_free example_after_put "/home/u/images/a.jpg")
    as (_ & H & _ & S & _).
  split; [vm_compute; reflexivity|]. split; [vm_compute; reflexivity|]. split.
  - destruct H as (n & Hn & Hf & Hb); [vm_compute; reflexivity|]. eauto.
  - apply (S "/home/u/images" "photo_1" "jpg" 1); reflexivity.
Defined.

(** The resolver always answers. *)
Lemma finalName_returns st route : exists q, tools.finalName st route = Some q.
Proof.
  unfold tools.finalName. destruct (existsSync st route); [|eauto].
  destruct (search_finds st route) as (m & _ & -> & _). eauto.
Qed.

(** [add] always comes to an end. *)
Lemma add_never_diverges st folder oldPath newPath callback :
  outcome (add st folder oldPath newPath callback) <> Diverged.
Proof.
  assert (forall s cb args, outcome (invoke s cb args) <> Diverged) as I
    by (intros s cb args; now destruct cb).
  assert (forall s cb args, outcome (invoke_later s cb args) <> Diverged) as I'
    by (intros s cb args; now destruct cb).
  unfold add.
  destruct (checker st folder oldPath newPath callback) as [p cb|r] eqn:C.
  - destruct (finalName_returns st p) as [q ->].
    unfold move. destruct (fs_rename _ _ _); apply I'.
  - unfold checker in C.
    repeat match type of C with
           | context [match ?x with _ => _ end] => destruct x
           end;
      try discriminate; injection C as <-; solve [discriminate | apply I].
Qed.

(** ** Creations under way *)

Lemma insert_dirs_lookup (l : list string) (d : gmap string node) x :
  foldr (fun a acc => <[a := Dir]> acc) d l !! x
  = if existsb (string_eqb x) l then Some Dir else d !! x.
Proof.
  induction l as [|a l IH]; simpl; [reflexivity|].
  destruct (decide (x = a)) as [->|N].
  - rewrite lookup_insert_eq. unfold string_eqb at 1.
    now rewrite bool_decide_eq_true_2 by reflexivity.
  - rewrite lookup_insert_ne by congruence. unfold string_eqb at 1.
    now rewrite bool_decide_eq_false_2 by exact N.
Qed.

Lemma mkdirp_lookup d k x :
  mkdirp d k !! x
  = if negb (existsb (fun a => is_file (disk_lookup d a)) (ancestors k))
       && existsb (string_eqb x) (ancestors k)
    then Some Dir else d !! x.
Proof.
  unfold mkdirp.
  destruct (existsb (fun a => is_file (disk_lookup d a)) (ancestors k));
    [reflexivity|apply insert_dirs_lookup].
Qed.

(** What is on the disk after several [mkdirp]: the order plays no part. *)
Lemma make_all_lookup l d x :
  foldr (fun k d => mkdirp d k) d l !! x
  = if existsb (fun k => negb (existsb (fun a => is_file (disk_lookup d a)) (ancestors k))
                         && existsb (string_eqb x) (ancestors k)) l
    then Some Dir else d !! x.
Proof.
  induction l as [|k l IH]; simpl; [reflexivity|].
  rewrite mkdirp_lookup.
  rewrite (existsb_same (fun a => is_file (disk_lookup (foldr (fun k d => mkdirp d k) d l) a))
             (fun a => is_file (disk_lookup d a)))
    by (intros a; apply make_all_keeps_files).
  destruct (negb (existsb (fun a => is_file (disk_lookup d a)) (ancestors k))
            && existsb (string_eqb x) (ancestors k)); [reflexivity|exact IH].
Qed.

Lemma make_all_ext d l l' :
  (forall k, In k l <-> In k l') ->
  foldr (fun k d => mkdirp d k) d l = foldr (fun k d => mkdirp d k) d l'.
Proof.
  intros H. apply map_eq. intros x. rewrite !make_all_lookup.
  match goal with
  | |- (if existsb ?f l then _ else _) = _ =>
      assert (existsb f l = existsb f l') as ->; [|reflexivity]
  end.
  apply Bool.eq_iff_eq_true. rewrite !existsb_exists.
  split; intros (k & I & K); exists k; (split; [now apply H|exact K]).
Qed.


Lemma settle_keeps_dirs st k :
  is_dir (disk_lookup (disk st) k) = true ->
  is_dir (disk_lookup (disk (settle st)) k) = true.
Proof. apply make_all_keeps_dirs. Qed.



(** Two states on the same disk in the same working directory find the same
    things. *)
Lemma same_place st st' :
  cwd st' = cwd st -> disk st' = disk st ->
  (forall p, key st' p = key st p)
  /\ (forall p, existsSync st' p = existsSync st p)
  /\ (forall p, blocked st' p = blocked st p)
  /\ (forall p, dir_at st' p = dir_at st p).
Proof.
  intros C D. unfold dir_at, blocked, existsSync, key. rewrite C, D. auto.
Qed.

(** ** Registration of a folder *)

Lemma ensure_folder_frame st p :
  cwd (ensure_folder st p) = cwd st
  /\ disk (ensure_folder st p) = disk st
  /\ folders (ensure_folder st p) = folders st
  /\ safenames (ensure_folder st p) = safenames st.
Proof. unfold ensure_folder. now destruct (existsSync st p). Qed.

Lemma ensure_folder_pending st p :
  pending (ensure_folder st p)
  = if existsSync st p then pending st else {[key st p]} ∪ pending st.
Proof. unfold ensure_folder. now destruct (existsSync st p). Qed.

Lemma ensure_folder_place st p :
  (forall q, key (ensure_folder st p) q = key st q)
  /\ (forall q, existsSync (ensure_folder st p) q = existsSync st q)
  /\ (forall q, blocked (ensure_folder st p) q = blocked st q)
  /\ (forall q, dir_at (ensure_folder st p) q = dir_at st q).
Proof.
  destruct (ensure_folder_frame st p) as (C & D & _). now apply same_place.
Qed.

Lemma set_folder_frame st name p :
  cwd (set_folder st name p) = cwd st
  /\ disk (set_folder st name p) = disk st
  /\ safenames (set_folder st name p) = safenames st
  /\ pending (set_folder st name p) = pending st.
Proof. unfold set_folder. now destruct (storable st name). Qed.

Lemma set_folder_lookup st name p :
  storable st name = true -> folders (set_folder st name p) !! name = Some p.
Proof. unfold set_folder. intros ->. apply lookup_insert_eq. Qed.

Lemma set_folder_other st name p other :
  other <> name -> folders (set_folder st name p) !! other = folders st !! other.
Proof.
  intros N. unfold set_folder. destruct (storable st name); [|reflexivity].
  simpl. now rewrite lookup_insert_ne by congruence.
Qed.


Lemma set_folder_place st name p :
  (forall q, key (set_folder st name p) q = key st q)
  /\ (forall q, existsSync (set_folder st name p) q = existsSync st q)
  /\ (forall q, blocked (set_folder st name p) q = blocked st q)
  /\ (forall q, dir_at (set_folder st name p) q = dir_at st q).
Proof.
  destruct (set_folder_frame st name p) as (C & D & _). now apply same_place.
Qed.

Lemma storable_ensure_folder st p name :
  storable (ensure_folder st p) name = storable st name.
Proof.
  unfold storable. now rewrite (proj1 (proj2 (proj2 (ensure_folder_frame st p)))).
Qed.

Lemma folder_final st name folderPath callback :
  final (folder st name folderPath callback)
  = set_folder (ensure_folder st folderPath) name folderPath.
Proof.
  unfold folder. destruct (truthy callback); [apply invoke_later_final|reflexivity].
Qed.

(** C8, as the code has it. [folder] does not look at the path it is given:
    whatever the path, the empty one included, the alias is stored and the
    callback is called once, with no error. The alias is one the assignment
    of line 145 stores: any name but [__proto__], and that one too when the
    table has it as a property of its own. *)
Theorem folder_stores_any_path st name folderPath f :
  storable st name = true ->
  let r := folder st name folderPath (VFun f) in
  folders (final r) !! name = Some folderPath
  /\ calls r = [(f, [])]
  /\ outcome r = Returned.
Proof.
  intros S r. subst r. unfold folder. simpl.
  split; [|split; reflexivity].
  apply set_folder_lookup. now rewrite storable_ensure_folder.
Qed.

Lemma folder_stores_any_path_witness :
  let r := folder (example false) "docs" "./docs" (VFun (Callback 0)) in
  folders (final r) !! "docs" = Some "./docs"
  /\ calls r = [(Callback 0, [])]
  /\ outcome r = Returned.
Proof.
  apply (folder_stores_any_path (example false) "docs" "./docs" (Callback 0)).
  vm_compute. reflexivity.
Defined.

(** C8 fails for [folder('docs', '', cb)]: the mapping is stored and the
    callback gets no error. *)
Lemma folder_empty_path_is_stored :
  let r := folder (example false) "docs" "" (VFun (Callback 0)) in
  folders (final r) !! "docs" = Some ""
  /\ calls r = [(Callback 0, [])]
  /\ outcome r = Returned.
Proof. vm_compute. repeat split; reflexivity. Qed.

(** ** What [put] and [add] leave in place *)






(** ** The invariant *)





(** ** The constructor's loop *)






(** ** More on registration *)

(** X8. An alias registered with the empty path cannot be used: [folder]
    accepts it, and every later [put] or [add] on it, with valid arguments,
    is answered with ['invalid folder']. The alias is one the assignment of
    line 145 stores (any name but [__proto__], and that one too when the
    table has it as a property of its own). *)
Theorem empty_path_alias_is_unknown st name cb src newPath callback np f :
  storable st name = true ->
  let st' := final (folder st name "" cb) in
  arguments_valid st' (VStr name) (VStr src) = true ->
  normalise (VStr src) newPath callback = Some (np, VFun f) ->
  put st' (VStr name) (VStr src) newPath callback
  = mkResult st' [(f, [UnknownFolderError])] Returned
  /\ add st' (VStr name) (VStr src) newPath callback
     = mkResult st' [(f, [UnknownFolderError])] Returned.
Proof.
  intros S st' V N.
  assert (folder_known st' (str_of (VStr name)) = false) as U.
  { unfold folder_known. subst st'. rewrite folder_final. simpl str_of.
    rewrite (get_folder_own _ _ "");
      [reflexivity|apply set_folder_lookup; now rewrite storable_ensure_folder]. }
  unfold put, add. now rewrite (checker_unknown_alias _ _ _ _ _ _ _ V U N).
Qed.

Lemma empty_path_alias_is_unknown_witness :
  let st' := final (folder (example false) "docs" "" VUndefined) in
  put st' (VStr "docs") (VStr "/tmp/a.jpg") (VStr "a.jpg") (VFun (Callback 1))
  = mkResult st' [(Callback 1, [UnknownFolderError])] Returned
  /\ add st' (VStr "docs") (VStr "/tmp/a.jpg") (VStr "a.jpg") (VFun (Callback 1))
     = mkResult st' [(Callback 1, [UnknownFolderError])] Returned.
Proof.
  apply (empty_path_alias_is_unknown (example false) "docs" VUndefined "/tmp/a.jpg"
           (VStr "a.jpg") (VFun (Callback 1)) (VStr "a.jpg") (Callback 1)).
  - vm_compute. reflexivity.
  - vm_compute. reflexivity.
  - reflexivity.
Defined.

Lemma ensure_folder_idempotent st p :
  ensure_folder (ensure_folder st p) p = ensure_folder st p.
Proof.
  unfold ensure_folder at 1. rewrite (proj1 (proj2 (ensure_folder_place st p))).
  destruct (existsSync st p) eqn:E; [reflexivity|].
  unfold ensure_folder. rewrite E. unfold start_mkdirp, key. simpl. f_equal.
  rewrite (assoc_L (∪)). now rewrite (idemp_L (∪)).
Qed.

(** [ensure_folder] does not look at the alias table. *)
Lemma ensure_folder_set_folder st name q p :
  ensure_folder (set_folder st name q) p = set_folder (ensure_folder st p) name q.
Proof.
  unfold ensure_folder. rewrite (proj1 (proj2 (set_folder_place st name q))).
  destruct (existsSync st p); [reflexivity|].
  unfold set_folder, storable, start_mkdirp, key. simpl.
  now destruct (negb (string_eqb name "__proto__") || is_some_path (folders st !! name)).
Qed.

Lemma set_folder_twice st name p :
  set_folder (set_folder st name p) name p = set_folder st name p.
Proof.
  unfold set_folder. destruct (storable st name) eqn:S; [|now rewrite S].
  unfold storable. simpl. rewrite lookup_insert_eq. simpl. rewrite orb_true_r.
  now rewrite insert_insert_eq.
Qed.

(** X14. [folder] never destroys anything: every regular file keeps its
    place and its content (and no file appears), no directory goes away, and
    no alias but the one named changes. This holds when [folder] has called
    back, and still holds once the creation it started has been carried
    out. *)
Theorem folder_destroys_nothing st name folderPath callback :
  let st' := final (folder st name folderPath callback) in
  (forall k c, disk_lookup (disk st') k = Some (File c)
               <-> disk_lookup (disk st) k = Some (File c))
  /\ (forall k, is_dir (disk_lookup (disk st) k) = true ->
                is_dir (disk_lookup (disk st') k) = true)
  /\ (forall other, other <> name -> folders st' !! other = folders st !! other)
  /\ safenames st' = safenames st
  /\ (forall k c, disk_lookup (disk (settle st')) k = Some (File c)
                  <-> disk_lookup (disk st) k = Some (File c))
  /\ (forall k, is_dir (disk_lookup (disk st) k) = true ->
                is_dir (disk_lookup (disk (settle st')) k) = true).
Proof.
  cbv zeta. rewrite folder_final.
  destruct (set_folder_frame (ensure_folder st folderPath) name folderPath)
    as (_ & D & Sa & _).
  destruct (ensure_folder_frame st folderPath) as (_ & D' & F' & Sa').
  assert (disk (set_folder (ensure_folder st folderPath) name folderPath) = disk st) as E
    by congruence.
  split; [|split; [|split; [|split; [|split]]]].
  - intros k c. now rewrite E.
  - intros k. now rewrite E.
  - intros other N. now rewrite set_folder_other, F' by exact N.
  - congruence.
  - intros k c. unfold settle. simpl disk. rewrite E. apply make_all_file_content.
  - intros k H. apply settle_keeps_dirs. now rewrite E.
Qed.

(** X15. Registering the same alias with the same path twice is the same as
    registering it once: the second call finds the directory, or fails to
    make it in the same way, and stores the same mapping. *)
Theorem folder_twice_is_once st name folderPath callback callback' :
  final (folder (final (folder st name folderPath callback)) name folderPath callback')
  = final (folder st name folderPath callback).
Proof.
  rewrite !folder_final, ensure_folder_set_folder, ensure_folder_idempotent.
  apply set_folder_twice.
Qed.

(** X16. With a regular file at the path or above it, [folder] calls the
    callback without any error and stores the alias all the same (when it is
    one the assignment stores), and the creation it starts comes to nothing:
    once the creations under way have been carried out the disk is what it
    would have been without the call. *)
Theorem folder_under_a_file st name folderPath f :
  blocked st folderPath = true ->
  storable st name = true ->
  let r := folder st name folderPath (VFun f) in
  calls r = [(f, [])] /\ outcome r = Returned
  /\ folders (final r) !! name = Some folderPath
  /\ disk (final r) = disk st
  /\ disk (settle (final r)) = disk (settle st).
Proof.
  intros B S r. subst r. split; [reflexivity|]. split; [reflexivity|].
  rewrite folder_final.
  destruct (set_folder_frame (ensure_folder st folderPath) name folderPath)
    as (_ & D & _ & Pe).
  destruct (ensure_folder_frame st folderPath) as (_ & D' & _).
  split; [apply set_folder_lookup; now rewrite storable_ensure_folder|].
  split; [congruence|].
  unfold settle. simpl disk. rewrite D, D', Pe, ensure_folder_pending.
  destruct (existsSync st folderPath); [reflexivity|].
  rewrite (make_all_ext (disk st) (elements ({[key st folderPath]} ∪ pending st))
             (key st folderPath :: elements (pending st))).
  - simpl. apply mkdirp_blocked. unfold blocked, blocked_at in B. fold (key st folderPath) in B.
    rewrite <- B. apply existsb_same. intros a. apply make_all_keeps_files.
  - intros k. rewrite <- list_elem_of_In, elem_of_elements, elem_of_union, elem_of_singleton.
    simpl. rewrite <- list_elem_of_In, elem_of_elements.
    split; intros [H|H]; auto.
Qed.

Lemma folder_under_a_file_witness :
  let r := folder (example false) "docs" "/tmp/a.jpg/docs" (VFun (Callback 0)) in
  calls r = [(Callback 0, [])] /\ outcome r = Returned
  /\ folders (final r) !! "docs" = Some "/tmp/a.jpg/docs"
  /\ disk (final r) = disk (example false)
  /\ disk (settle (final r)) = disk (settle (example false)).
Proof.
  apply (folder_under_a_file (example false) "docs" "/tmp/a.jpg/docs" (Callback 0)).
  - vm_compute. reflexivity.
  - vm_compute. reflexivity.
Defined.

(** ** The constructor and [folder] *)

Lemma ensure_folder_with_folders st fo p :
  ensure_folder (with_folders st fo) p = with_folders (ensure_folder st p) fo.
Proof.
  unfold ensure_folder.
  assert (existsSync (with_folders st fo) p = existsSync st p) as -> by reflexivity.
  now destruct (existsSync st p).
Qed.

Lemma ensure_all_with_folders (l : list (string * string)) st fo :
  foldl (fun st kv => ensure_folder st (snd kv)) (with_folders st fo) l
  = with_folders (foldl (fun st kv => ensure_folder st (snd kv)) st l) fo.
Proof.
  revert st. induction l as [|kv l IH]; intros st; [reflexivity|].
  simpl. now rewrite ensure_folder_with_folders, IH.
Qed.

Lemma register_all (l : list (string * string)) st :
  (forall kv, In kv l -> fst kv <> "__proto__") ->
  foldl (fun st kv => final (folder st (fst kv) (snd kv) VUndefined)) st l
  = with_folders (foldl (fun st kv => ensure_folder st (snd kv)) st l)
                 (foldl (fun m kv => <[fst kv := snd kv]> m) (folders st) l).
Proof.
  revert st. induction l as [|[a p] l IH]; intros st H.
  - now destruct st.
  - cbn [foldl fst snd]. rewrite folder_final, IH by (intros kv I; apply H; now right).
    assert (set_folder (ensure_folder st p) a p
            = with_folders (ensure_folder st p) (<[a:=p]> (folders (ensure_folder st p))))
      as ->.
    { unfold set_folder, storable.
      assert (string_eqb a "__proto__" = false) as ->
        by (apply bool_decide_eq_false; apply (H (a, p)); now left).
      reflexivity. }
    rewrite ensure_all_with_folders. unfold with_folders.
    cbn [cwd disk folders safenames pending].
    now rewrite (proj1 (proj2 (proj2 (ensure_folder_frame st p)))).
Qed.

Lemma insert_all_map_to_list (m : gmap string string) :
  foldl (fun acc kv => <[fst kv := snd kv]> acc) ∅ (map_to_list m) = m.
Proof.
  assert (forall (l : list (string * string)) (acc : gmap string string),
             foldl (fun acc kv => <[fst kv := snd kv]> acc) acc l
             = foldr (fun kv acc => <[fst kv := snd kv]> acc) acc (rev l)) as R.
  { induction l as [|kv l IH]; intros acc; [reflexivity|].
    simpl. now rewrite IH, foldr_app. }
  rewrite R. change (list_to_map (rev (map_to_list m)) = m).
  rewrite <- (list_to_map_proper (map_to_list m) (rev (map_to_list m))).
  - apply list_to_map_to_list.
  - apply NoDup_fst_map_to_list.
  - apply Permutation_rev.
Qed.

(** X17. The constructor registers the folders of its options exactly as
    calls of [folder] would, one alias after the other in the order of the
    loop, as long as no alias is [__proto__], which the constructor takes
    over with the table and the assignment in [folder] does not store: the
    outcome, creations under way included, is the Filesaver built without
    folders on which [folder] has been called for each entry. *)
Theorem constructor_registers_like_folder wd d o :
  default ∅ (opt_folders o) !! "__proto__" = None ->
  Filesaver wd d o
  = foldl (fun st kv => final (folder st (fst kv) (snd kv) VUndefined))
          (Filesaver wd d (mkOptions None (opt_safenames o)))
          (map_to_list (default ∅ (opt_folders o))).
Proof.
  intros NP. unfold Filesaver. simpl. rewrite map_to_list_empty. simpl.
  set (fo := default ∅ (opt_folders o)) in *.
  set (s0 := mkState wd d ∅ (default false (opt_safenames o)) ∅).
  rewrite register_all.
  - simpl. rewrite insert_all_map_to_list.
    apply (ensure_all_with_folders (map_to_list fo) s0 fo).
  - intros [a p] I E. simpl in E. subst a.
    apply list_elem_of_In, elem_of_map_to_list in I. congruence.
Qed.

Lemma constructor_registers_like_folder_witness :
  Filesaver "/home/u" example_disk (mkOptions (Some {["images" := "./images"]}) (Some false))
  = foldl (fun st kv => final (folder st (fst kv) (snd kv) VUndefined))
          (Filesaver "/home/u" example_disk
             (mkOptions None
                (opt_safenames (mkOptions (Some {["images" := "./images"]}) (Some false)))))
          (map_to_list
             (default ∅ (opt_folders (mkOptions (Some {["images" := "./images"]})
                                                (Some false))))).
Proof.
  apply (constructor_registers_like_folder "/home/u" example_disk
           (mkOptions (Some {["images" := "./images"]}) (Some false))).
  vm_compute. reflexivity.
Defined.
